(** * Raster-only taskflow composition and the default TrajOpt problem generator

    A shallow embedding of
    - [RasterOnlyTaskflow] (raster_only_taskflow.cpp): input validation,
      assembly of raster and transition sub-taskflows with their
      dependency edges, the success/failure callbacks, [abort] and [clear];
    - [DefaultTrajoptProblemGenerator] (default_problem_generator.h):
      start waypoint selection, profile lookup and the construction of the
      costs and seed of a TrajOpt problem;
    - the port schema and Node Info record of [DiscreteContactCheckTask]
      (discrete_contact_check_task.h). *)

From Stdlib Require Import ZArith Lia.
From stdpp Require Import base list gmap strings pretty sorting.

Open Scope nat_scope.
Local Set Warnings "-register-all".

Local Infix "+:+" := String.append (at level 60, right associativity).

(** ** Command language *)

Module CommandLanguage.

(** Poses are kept symbolic: a Cartesian pose given by the user, a pose
    obtained from forward kinematics and framed by the base link transform
    and the TCP, or the [k]-th pose of an interpolation. *)
Inductive Pose :=
| PCart (iso : Z)
| PFk (base_link : string) (fk : Z) (tcp : Z)
| PInterp (from to : Pose) (steps : Z) (k : nat).

Inductive Waypoint :=
| NullWaypoint
| CartesianWaypoint (iso : Z)
| JointWaypoint (position : list Z) (joint_names : list string)
| StateWaypoint (joint_names : list string) (position : list Z).

Inductive PlanInstructionType := LINEAR | FREESPACE | CIRCULAR | START.

Record PlanInstruction := mkPlan {
  plan_waypoint : Waypoint;
  plan_type : PlanInstructionType;
  plan_profile : string;
  plan_tcp : Z;
  plan_description : string }.

Definition setPlanType (p : PlanInstruction) (t : PlanInstructionType) : PlanInstruction :=
  mkPlan (plan_waypoint p) t (plan_profile p) (plan_tcp p) (plan_description p).

Definition isLinear (p : PlanInstruction) : bool :=
  match plan_type p with LINEAR => true | _ => false end.
Definition isFreespace (p : PlanInstruction) : bool :=
  match plan_type p with FREESPACE => true | _ => false end.

(** The type-erased [Instruction]. A [CompositeInstruction] carries its
    description, profile, start instruction ([NullInstruction] when it has
    none) and children. *)
Inductive Instruction :=
| NullInstruction
| PlanInstr (p : PlanInstruction)
| MoveInstruction (position : list Z) (description : string)
| WaitInstruction (description : string)
| CompositeInstruction (description : string) (profile : string)
    (start_instruction : Instruction) (children : list Instruction).

Definition isNullInstruction (i : Instruction) : bool :=
  match i with NullInstruction => true | _ => false end.
Definition isCompositeInstruction (i : Instruction) : bool :=
  match i with CompositeInstruction _ _ _ _ => true | _ => false end.
Definition isPlanInstruction (i : Instruction) : bool :=
  match i with PlanInstr _ => true | _ => false end.
Definition isMoveInstruction (i : Instruction) : bool :=
  match i with MoveInstruction _ _ => true | _ => false end.

Definition getDescription (i : Instruction) : string :=
  match i with
  | NullInstruction => "Tesseract Null Instruction"
  | PlanInstr p => plan_description p
  | MoveInstruction _ d | WaitInstruction d => d
  | CompositeInstruction d _ _ _ => d
  end.

Definition composite_children (i : Instruction) : list Instruction :=
  match i with CompositeInstruction _ _ _ c => c | _ => [] end.
Definition composite_start (i : Instruction) : Instruction :=
  match i with CompositeInstruction _ _ s _ => s | _ => NullInstruction end.
Definition composite_profile (i : Instruction) : string :=
  match i with CompositeInstruction _ p _ _ => p | _ => "" end.

Definition hasStartInstruction (i : Instruction) : bool :=
  negb (isNullInstruction (composite_start i)).

(** [getLastPlanInstruction] of tesseract_command_language: the last plan
    instruction found searching the children backwards, descending into
    child composites, and finally the start instruction. *)
Fixpoint last_plan_of (i : Instruction) : option PlanInstruction :=
  match i with
  | PlanInstr p => Some p
  | CompositeInstruction _ _ s c =>
      let fix go (l : list Instruction) : option PlanInstruction :=
        match l with
        | [] => None
        | j :: rest =>
            match go rest with
            | Some p => Some p
            | None => last_plan_of j
            end
        end in
      match go c with
      | Some p => Some p
      | None => match s with PlanInstr p => Some p | _ => None end
      end
  | _ => None
  end.

Definition getLastPlanInstruction (i : Instruction) : option PlanInstruction :=
  match i with
  | CompositeInstruction _ _ _ _ => last_plan_of i
  | _ => None
  end.

End CommandLanguage.
Import CommandLanguage.

(** ** RasterOnlyTaskflow (raster_only_taskflow.cpp) *)

Module RasterOnly.

(** The two owned sub-generators. *)
Inductive GenKind := TransitionGen | RasterGen.

(** Observable side effects: calls into the sub-generators, console
    messages and invocations of the user's [std::function] callbacks
    (a callback is an identifier; an empty [std::function] is [None]). *)
Inductive Event :=
| EvAbort (g : GenKind)
| EvReset (g : GenKind)
| EvClear (g : GenKind)
| EvLogError (msg : string)
| EvLogInform (msg : string)
| EvInvoke (cb : nat).

(** [ProcessInput] of tesseract_process_managers: the tesseract handle
    (non-null or not), the top-level instruction, the path of child indices
    selecting the sub-instruction, and the start and end instruction
    overrides (an instruction, or indices of sibling instructions). *)
Inductive StartSpec :=
| SNone
| SInstr (i : Instruction)
| SIndices (l : list nat).

Record ProcessInput := mkInput {
  tesseract : bool;
  instruction : Instruction;
  instruction_indice : list nat;
  start_instruction : StartSpec;
  end_instruction : StartSpec }.

(** [input[idx]]: the child process input. *)
Definition input_at (input : ProcessInput) (idx : nat) : ProcessInput :=
  mkInput (tesseract input) (instruction input) (instruction_indice input ++ [idx])
    (start_instruction input) (end_instruction input).

Definition setStartInstruction (input : ProcessInput) (s : StartSpec) : ProcessInput :=
  mkInput (tesseract input) (instruction input) (instruction_indice input) s
    (end_instruction input).

Definition setEndInstruction (input : ProcessInput) (s : StartSpec) : ProcessInput :=
  mkInput (tesseract input) (instruction input) (instruction_indice input)
    (start_instruction input) s.

(** Result of [getInstruction()]: the instruction reached, an index past
    the end of a composite ([CompositeInstruction::at] throws
    [std::out_of_range]), or an index into a non-composite (a faulting
    access). *)
Inductive Lookup :=
| Found (i : Instruction)
| OutOfRange
| NotComposite.

(** [getInstruction()]: follow the indices through composites. *)
Fixpoint follow (i : Instruction) (path : list nat) : Lookup :=
  match path with
  | [] => Found i
  | k :: rest =>
      match i with
      | CompositeInstruction _ _ _ c =>
          match nth_error c k with Some j => follow j rest | None => OutOfRange end
      | _ => NotComposite
      end
  end.

Definition getInstruction (input : ProcessInput) : Lookup :=
  follow (instruction input) (instruction_indice input).

(** [getStartInstruction()] is a null instruction. *)
Definition start_is_null (input : ProcessInput) : bool :=
  match start_instruction input with
  | SNone => true
  | SInstr i => isNullInstruction i
  | SIndices _ => false
  end.

(** [input.size()]: number of children of the selected composite. *)
Definition input_size (input : ProcessInput) : nat :=
  match getInstruction input with
  | Found (CompositeInstruction _ _ _ c) => length c
  | _ => 0
  end.

(** A composed task of the outer [tf::Taskflow]: its name, the
    sub-generator whose taskflow it is composed of, the process input that
    taskflow was generated for, and the two bound callbacks
    ([message], user callback). *)
Record Task := mkTask {
  task_name : string;
  task_gen : GenKind;
  task_input : ProcessInput;
  task_success : string * option nat;
  task_failure : string * option nat }.

(** A taskflow: tasks by id (their position) and dependency edges
    [(predecessor, successor)]. *)
Record Taskflow := mkTaskflow {
  tf_tasks : list Task;
  tf_edges : list (nat * nat) }.

Definition empty_taskflow : Taskflow := mkTaskflow [] [].

(** The object state: the members of [RasterOnlyTaskflow] and the event
    log. *)
Record RasterOnlyTaskflow := mkROT {
  name_ : string;
  taskflow_ : Taskflow;
  raster_tasks_ : list nat;
  transition_tasks_ : list nat;
  log_ : list Event }.

(** A state and exception monad; [RFault] is undefined behaviour
    (null or out-of-range dereference). *)
Inductive Res (A : Type) :=
| ROk (a : A) (s : RasterOnlyTaskflow)
| RThrow (msg : string) (s : RasterOnlyTaskflow)
| RFault.
Arguments ROk {A}. Arguments RThrow {A}. Arguments RFault {A}.

Definition M (A : Type) := RasterOnlyTaskflow -> Res A.

Definition ret {A} (a : A) : M A := fun s => ROk a s.
Definition bind {A B} (m : M A) (k : A -> M B) : M B :=
  fun s => match m s with
           | ROk a s' => k a s'
           | RThrow e s' => RThrow e s'
           | RFault => RFault
           end.
Definition throw {A} (msg : string) : M A := fun s => RThrow msg s.
Definition fault {A} : M A := fun _ => RFault.
Definition gets {A} (f : RasterOnlyTaskflow -> A) : M A := fun s => ROk (f s) s.
Definition modify (f : RasterOnlyTaskflow -> RasterOnlyTaskflow) : M unit :=
  fun s => ROk tt (f s).
Definition of_option {A} (o : option A) : M A :=
  match o with Some a => ret a | None => fault end.

(** Message of the [std::out_of_range] thrown by [CompositeInstruction::at]. *)
Definition msg_out_of_range : string := "vector::_M_range_check".

(** Dereferencing [getInstruction()]. *)
Definition of_lookup (l : Lookup) : M Instruction :=
  match l with
  | Found i => ret i
  | OutOfRange => throw msg_out_of_range
  | NotComposite => fault
  end.

Notation "'let*' x := m 'in' k" := (bind m (fun x => k))
  (at level 200, x name, m at level 100, k at level 200).
Notation "m ;; k" := (bind m (fun _ => k)) (at level 100, k at level 200, right associativity).

Definition emit (e : Event) : M unit :=
  modify (fun s => mkROT (name_ s) (taskflow_ s) (raster_tasks_ s) (transition_tasks_ s)
                         (log_ s ++ [e])).

Definition set_taskflow (tf : Taskflow) : M unit :=
  modify (fun s => mkROT (name_ s) tf (raster_tasks_ s) (transition_tasks_ s) (log_ s)).

Definition set_raster_tasks (l : list nat) : M unit :=
  modify (fun s => mkROT (name_ s) (taskflow_ s) l (transition_tasks_ s) (log_ s)).

Definition set_transition_tasks (l : list nat) : M unit :=
  modify (fun s => mkROT (name_ s) (taskflow_ s) (raster_tasks_ s) l (log_ s)).

(** [taskflow_.composed_of(sub).name(n)]: append a task, return its id. *)
Definition composed_of (t : Task) : M nat :=
  let* tf := gets taskflow_ in
  set_taskflow (mkTaskflow (tf_tasks tf ++ [t]) (tf_edges tf)) ;;
  ret (length (tf_tasks tf)).

(** [task.succeed(pred)]. *)
Definition succeed (task pred : nat) : M unit :=
  let* tf := gets taskflow_ in
  set_taskflow (mkTaskflow (tf_tasks tf) (tf_edges tf ++ [(pred, task)])).

(** [raster_tasks_[k]] (unchecked [operator[]]). *)
Definition raster_task_at (k : nat) : M nat :=
  let* l := gets raster_tasks_ in of_option (nth_error l k).

Definition push_raster (id : nat) : M unit :=
  let* l := gets raster_tasks_ in set_raster_tasks (l ++ [id]).

Definition push_transition (id : nat) : M unit :=
  let* l := gets transition_tasks_ in set_transition_tasks (l ++ [id]).

Definition abort : M unit :=
  emit (EvAbort TransitionGen) ;;
  emit (EvAbort RasterGen) ;;
  emit (EvLogError "Terminating Taskflow").

Definition reset : M unit :=
  emit (EvReset TransitionGen) ;;
  emit (EvReset RasterGen).

Definition clear : M unit :=
  emit (EvClear TransitionGen) ;;
  emit (EvClear RasterGen) ;;
  set_taskflow empty_taskflow ;;
  set_raster_tasks [].

Definition successCallback (message : string) (user_callback : option nat) : M unit :=
  let* name := gets name_ in
  emit (EvLogInform (name +:+ " Successful: " +:+ message)) ;;
  match user_callback with Some cb => emit (EvInvoke cb) | None => ret tt end.

Definition failureCallback (message : string) (user_callback : option nat) : M unit :=
  emit (EvAbort TransitionGen) ;;
  emit (EvAbort RasterGen) ;;
  let* name := gets name_ in
  emit (EvLogError (name +:+ " Failure: " +:+ message)) ;;
  match user_callback with Some cb => emit (EvInvoke cb) | None => ret tt end.

(** Start instruction of raster [idx] (lines 77-94): the composite's own
    start instruction for the first raster, the last plan instruction of the
    preceding transition otherwise; then
    [start_instruction.cast<PlanInstruction>()->setPlanType(START)], which
    dereferences a non-plan instruction as a plan instruction. *)
Definition raster_start_instruction (input : ProcessInput) (idx : nat) : M Instruction :=
  let* input_instruction := of_lookup (getInstruction input) in
  let* start :=
    (if idx =? 0 then ret (composite_start input_instruction)
     else
       let* pre_input_instruction := of_lookup (getInstruction (input_at input (idx - 1))) in
       let* li := of_option (getLastPlanInstruction pre_input_instruction) in
       ret (PlanInstr li)) in
  match start with
  | PlanInstr p => ret (PlanInstr (setPlanType p START))
  | _ => fault
  end.

Definition raster_name (idx : nat) (desc : string) : string :=
  "Raster #" +:+ pretty (idx / 2) +:+ ": " +:+ desc.

Definition transition_name (transition_idx : nat) (desc : string) : string :=
  "Transition #" +:+ pretty transition_idx +:+ ": " +:+ desc.

(** Body of the raster loop (lines 76-110). *)
Definition raster_step (input : ProcessInput) (done_cb error_cb : option nat) (idx : nat)
  : M unit :=
  let* start := raster_start_instruction input idx in
  let raster_input := setStartInstruction (input_at input idx) (SInstr start) in
  let* ri := of_lookup (getInstruction raster_input) in
  let desc := getDescription ri in
  let* raster_step := composed_of (mkTask (raster_name idx desc) RasterGen raster_input
                                          (desc, done_cb) (desc, error_cb)) in
  push_raster raster_step.

(** [for (idx = 0; idx < input.size(); idx += 2)]. The fuel only bounds
    the iterations: it is called with [input.size() + 1]. *)
Fixpoint raster_loop (input : ProcessInput) (done_cb error_cb : option nat) (fuel idx : nat)
  : M unit :=
  match fuel with
  | O => ret tt
  | S fuel' =>
      if idx <? input_size input
      then raster_step input done_cb error_cb idx ;;
           raster_loop input done_cb error_cb fuel' (idx + 2)
      else ret tt
  end.

(** [input.size() - 1] on [std::size_t]: wraps around below zero. *)
Definition size_t_sub (a b : nat) : Z := ((Z.of_nat a - Z.of_nat b) mod 2 ^ 64)%Z.

(** Body of the transition loop (lines 122-144). *)
Definition transition_step (input : ProcessInput) (done_cb error_cb : option nat)
    (starting_raster_idx input_idx transition_idx : nat) : M unit :=
  let transition_input :=
    setEndInstruction
      (setStartInstruction (input_at input input_idx) (SIndices [input_idx - 1]))
      (SIndices [input_idx + 1]) in
  let* ti := of_lookup (getInstruction transition_input) in
  let desc := getDescription ti in
  let* transition_step := composed_of (mkTask (transition_name transition_idx desc) TransitionGen
                                              transition_input (desc, done_cb) (desc, error_cb)) in
  let* r0 := raster_task_at (starting_raster_idx + transition_idx) in
  succeed transition_step r0 ;;
  let* r1 := raster_task_at (starting_raster_idx + transition_idx + 1) in
  succeed transition_step r1 ;;
  push_transition transition_step.

(** [for (input_idx = 1; input_idx < input.size() - 1; input_idx += 2)].
    Every iteration reads [input[input_idx]], which throws
    [std::out_of_range] once [input_idx >= input.size()] (when
    [input.size() - 1] wraps around), so [input.size() + 1] iterations of
    fuel are never exhausted. *)
Fixpoint transition_loop (input : ProcessInput) (done_cb error_cb : option nat)
    (starting_raster_idx : nat) (fuel input_idx transition_idx : nat) : M unit :=
  match fuel with
  | O => ret tt
  | S fuel' =>
      if (Z.of_nat input_idx <? size_t_sub (input_size input) 1)%Z
      then transition_step input done_cb error_cb starting_raster_idx input_idx transition_idx ;;
           transition_loop input done_cb error_cb starting_raster_idx fuel'
             (input_idx + 2) (transition_idx + 1)
      else ret tt
  end.

(** [checkProcessInput] (lines 173-212): each failing check logs its
    error and returns [false]. *)
Definition checkProcessInput (input : ProcessInput) : M bool :=
  if negb (tesseract input) then
    (emit (EvLogError "ProcessInput tesseract is a nullptr") ;; ret false)
  else
    let* input_instruction := of_lookup (getInstruction input) in
    if negb (isCompositeInstruction input_instruction) then
      (emit (EvLogError "ProcessInput Invalid: input.instructions should be a composite") ;;
       ret false)
    else if negb (hasStartInstruction input_instruction) && start_is_null input then
      (emit (EvLogError "ProcessInput Invalid: input.instructions should have a start instruction") ;;
       ret false)
    else if negb (forallb isCompositeInstruction (composite_children input_instruction)) then
      (emit (EvLogError "ProcessInput Invalid: Both rasters and transitions should be a composite") ;;
       ret false)
    else ret true.

Definition generateTaskflow (input : ProcessInput) (done_cb error_cb : option nat)
  : M Taskflow :=
  let* ok := checkProcessInput input in
  if negb ok then
    (emit (EvLogError "Invalid Process Input") ;;
     throw "Invalid Process Input")
  else
    (clear ;;
     let* starting_raster_idx := gets (fun s => length (raster_tasks_ s)) in
     raster_loop input done_cb error_cb (S (input_size input)) 0 ;;
     transition_loop input done_cb error_cb starting_raster_idx (S (input_size input)) 1 0 ;;
     gets taskflow_).

(** A run of the composed taskflow, seen from this object: each composed
    sub-taskflow, when it finishes, calls the success or failure callback
    bound to it in [generateTaskflow]. A run is the sequence of finishing
    sub-taskflows (task id, success) in the order they finish; what the
    sub-generators do internally is not part of this file. *)
Definition on_subtaskflow_done (id : nat) (success : bool) : M unit :=
  let* tf := gets taskflow_ in
  let* t := of_option (nth_error (tf_tasks tf) id) in
  if success then successCallback (fst (task_success t)) (snd (task_success t))
  else failureCallback (fst (task_failure t)) (snd (task_failure t)).

Fixpoint run_completions (l : list (nat * bool)) : M unit :=
  match l with
  | [] => ret tt
  | (id, ok) :: rest => on_subtaskflow_done id ok ;; run_completions rest
  end.

(** A computation whose only exception is [msg], whatever the state it
    starts from (it may still fault). *)
Definition throws_only {A} (msg : string) (m : M A) : Prop :=
  forall s e s', m s = RThrow e s' -> e = msg.

End RasterOnly.

(** ** DefaultTrajoptProblemGenerator (default_problem_generator.h) *)

Module TrajoptGenerator.

(** The kinematics object returned by [getManipulator]. *)
Record Kin := mkKin {
  kin_tip_link : string;
  kin_base_link : string;
  kin_joint_names : list string;
  kin_active_link_names : list string;
  (** [calcFwdKin(pose, joints)]: [None] when the solve fails. *)
  calcFwdKin : list Z -> option Z }.

(** The environment: current joint values and the active links of the
    adjacency map built from the scene graph. *)
Record Environment := mkEnv {
  env_joint_value : string -> Z;
  env_active_links : list string -> list string }.

Record Tesseract := mkTesseract {
  kin_map : gmap string Kin;
  environment : Environment }.

(** [PlannerRequest]: the instructions composite (profile, start
    instruction, children) and the seed composite's children. *)
Record PlannerRequest := mkRequest {
  req_tesseract : Tesseract;
  req_manipulator : string;
  instr_profile : string;
  instr_start : Instruction;
  instr_children : list Instruction;
  req_seed : list Instruction }.

(** The start waypoint of the instructions composite is the waypoint of
    its start plan instruction. *)
Definition hasStartWaypoint (r : PlannerRequest) : bool :=
  match instr_start r with PlanInstr _ => true | _ => false end.
Definition getStartWaypoint (r : PlannerRequest) : Waypoint :=
  match instr_start r with PlanInstr p => plan_waypoint p | _ => NullWaypoint end.

(** Profiles: a registered profile object (by identifier) or a freshly
    built default one. *)
Inductive PlanProfile := DefaultPlanProfile | UserPlanProfile (id : nat).
Inductive CompositeProfile := DefaultCompositeProfile | UserCompositeProfile (id : nat).

Inductive Target :=
| TPose (p : Pose)
| TJoint (position : list Z) (joint_names : list string).

(** One [cur_plan_profile->apply(pci, target, plan_instruction,
    active_links, index)]. *)
Record Applied := mkApplied {
  ap_profile : PlanProfile;
  ap_target : Target;
  ap_instruction : PlanInstruction;
  ap_index : Z }.

Record Problem := mkProblem {
  prob_n_steps : Z;
  prob_manip : string;
  prob_applied : list Applied;
  prob_fixed_steps : list Z;
  prob_seed : list (list Z);
  prob_composite_profile : CompositeProfile;
  prob_composite_range : Z * Z;
  prob_active_links : list string }.

(** Outcome: a value, a thrown [std::runtime_error] (or
    [std::out_of_range]), or undefined behaviour. *)
Inductive GRes (A : Type) :=
| GOk (a : A)
| GThrow (msg : string)
| GFault.
Arguments GOk {A}. Arguments GThrow {A}. Arguments GFault {A}.

Definition gbind {A B} (m : GRes A) (k : A -> GRes B) : GRes B :=
  match m with GOk a => k a | GThrow e => GThrow e | GFault => GFault end.

Notation "'let!' x := m 'in' k" := (gbind m (fun x => k))
  (at level 200, x name, m at level 100, k at level 200).

Definition msg_no_manip : string := "In trajopt_array_planner: manipulator_ does not exist in kin_map_".
Definition msg_child_composite : string := "Trajopt planner does not support child composite instructions.".
Definition msg_start_unknown : string := "DescartesMotionPlannerConfig: uknown waypoint type.".
Definition msg_fk : string := "TrajOptPlannerUniversalConfig: failed to solve forward kinematics!".
Definition msg_prev_unknown : string := "TrajOptPlannerUniversalConfig: uknown waypoint type.".
Definition msg_wp_unknown : string := "TrajOptPlannerUniversalConfig: unknown waypoint type".
Definition msg_unsupported : string := "Unsupported!".
Definition msg_out_of_range : string := "vector::_M_range_check".

(** Profile lookup (lines 100-110 and 342-352). *)
Definition profile_key (profile : string) : string :=
  if String.eqb profile "" then "DEFAULT" else profile.

Definition plan_profile_of (plan_profiles : gmap string PlanProfile) (profile : string)
  : PlanProfile :=
  match plan_profiles !! profile_key profile with
  | Some p => p
  | None => DefaultPlanProfile
  end.

Definition composite_profile_of (composite_profiles : gmap string CompositeProfile)
    (profile : string) : CompositeProfile :=
  match composite_profiles !! profile_key profile with
  | Some p => p
  | None => DefaultCompositeProfile
  end.

(** Start waypoint (lines 72-83). *)
Definition start_waypoint_of (env : Environment) (kin : Kin) (r : PlannerRequest) : Waypoint :=
  if hasStartWaypoint r then getStartWaypoint r
  else JointWaypoint (map (env_joint_value env) (kin_joint_names kin)) (kin_joint_names kin).

(** The profile target of a start waypoint: a Cartesian pose or a joint
    position; any other waypoint type is unknown (lines 128-141). *)
Definition waypoint_target (w : Waypoint) : option Target :=
  match w with
  | CartesianWaypoint c => Some (TPose (PCart c))
  | JointWaypoint q n => Some (TJoint q n)
  | _ => None
  end.

(** [seed_composite->at(k)] (range checked), [->back()] (unchecked) and
    the cast of a seed instruction to a move instruction. *)
Definition seed_at (seed_composite : list Instruction) (k : nat) : GRes Instruction :=
  match nth_error seed_composite k with Some i => GOk i | None => GThrow msg_out_of_range end.
Definition seed_back (seed_composite : list Instruction) : GRes Instruction :=
  match last seed_composite with Some i => GOk i | None => GFault end.
Definition seed_position (i : Instruction) : GRes (list Z) :=
  match i with MoveInstruction pos _ => GOk pos | _ => GFault end.

(** The loop-carried locals. *)
Record Acc := mkAcc {
  index : Z;
  found_plan_instruction : bool;
  start_waypoint : Waypoint;
  applied : list Applied;
  fixed_steps : list Z;
  seed_states : list (list Z) }.

Definition apply_profile (prof : PlanProfile) (t : Target) (pi : PlanInstruction) (acc : Acc)
  : Acc :=
  mkAcc (index acc) (found_plan_instruction acc) (start_waypoint acc)
    (applied acc ++ [mkApplied prof t pi (index acc)]) (fixed_steps acc) (seed_states acc).

Definition push_seed (pos : list Z) (acc : Acc) : Acc :=
  mkAcc (index acc) (found_plan_instruction acc) (start_waypoint acc) (applied acc)
    (fixed_steps acc) (seed_states acc ++ [pos]).

Definition push_fixed (acc : Acc) : Acc :=
  mkAcc (index acc) (found_plan_instruction acc) (start_waypoint acc) (applied acc)
    (fixed_steps acc ++ [index acc]) (seed_states acc).

Definition incr_index (acc : Acc) : Acc :=
  mkAcc (index acc + 1)%Z (found_plan_instruction acc) (start_waypoint acc) (applied acc)
    (fixed_steps acc) (seed_states acc).

Definition finish_plan (wp : Waypoint) (acc : Acc) : Acc :=
  mkAcc (index acc) true wp (applied acc) (fixed_steps acc) (seed_states acc).

(** [interpolate(start, stop, steps)] returns [steps + 1] poses. *)
Definition interpolate (a b : Pose) (steps : Z) : list Pose :=
  map (PInterp a b steps) (seq 0 (Z.to_nat (steps + 1))).

(** The pose of a joint position: [link_transforms.at(base) * fk * tcp]. *)
Definition fk_pose (kin : Kin) (q : list Z) (tcp : Z) : GRes Pose :=
  match calcFwdKin kin q with
  | Some f => GOk (PFk (kin_base_link kin) f tcp)
  | None => GThrow msg_fk
  end.

(** [prev_pose] from the start waypoint (lines 152-169, 206-223). *)
Definition prev_pose_of (kin : Kin) (start : Waypoint) (tcp : Z) : GRes Pose :=
  match start with
  | CartesianWaypoint c => GOk (PCart c)
  | JointWaypoint q _ => fk_pose kin q tcp
  | _ => GThrow msg_prev_unknown
  end.

(** Intermediate points of a linear move (lines 173-184): for
    [p = 1 .. poses.size() - 2], apply the profile at [poses[p]] and take
    the seed [seed_composite->at(p - shift)]. *)
Fixpoint linear_intermediate (prof : PlanProfile) (pi : PlanInstruction)
    (seed_composite : list Instruction) (shift : nat) (poses : list Pose)
    (ps : list nat) (acc : Acc) : GRes Acc :=
  match ps with
  | [] => GOk acc
  | p :: rest =>
      let! pose := (match nth_error poses p with Some x => GOk x | None => GFault end) in
      let acc := apply_profile prof (TPose pose) pi acc in
      let! si := seed_at seed_composite (p - shift) in
      let! pos := seed_position si in
      linear_intermediate prof pi seed_composite shift poses rest (incr_index (push_seed pos acc))
  end.

(** A linear move from [prev] to [cur] ending at [final] (lines 171-194
    and 225-248). [poses.size() - 1] wraps when there are no poses, and
    [poses[1]] is then read out of range. *)
Definition linear_points (prof : PlanProfile) (pi : PlanInstruction)
    (seed_composite : list Instruction) (shift : nat) (prev cur : Pose)
    (interpolate_cnt : Z) (final : Target) (acc : Acc) : GRes Acc :=
  let poses := interpolate prev cur interpolate_cnt in
  if length poses =? 0 then GFault
  else
    let! acc := linear_intermediate prof pi seed_composite shift poses
                  (seq 1 (length poses - 2)) acc in
    let acc := apply_profile prof final pi acc in
    let! sb := seed_back seed_composite in
    let! pos := seed_position sb in
    GOk (incr_index (push_seed pos acc)).

(** [for (s = shift; s < seed_composite->size() - 1; ++s)] of a freespace
    move (lines 262-270, 289-297); the bound wraps on an empty seed. *)
Fixpoint freespace_seeds (seed_composite : list Instruction) (fuel s : nat) (acc : Acc)
  : GRes Acc :=
  match fuel with
  | O => GOk acc
  | S fuel' =>
      if (Z.of_nat s <? RasterOnly.size_t_sub (length seed_composite) 1)%Z then
        let! si := seed_at seed_composite s in
        let! pos := seed_position si in
        freespace_seeds seed_composite fuel' (S s) (incr_index (push_seed pos acc))
      else GOk acc
  end.

Definition freespace_points (prof : PlanProfile) (pi : PlanInstruction)
    (seed_composite : list Instruction) (shift : nat) (final : Target) (acc : Acc)
  : GRes Acc :=
  let! acc := freespace_seeds seed_composite (S (length seed_composite)) shift acc in
  let acc := push_fixed (apply_profile prof final pi acc) in
  let! sb := seed_back seed_composite in
  let! pos := seed_position sb in
  GOk (push_seed pos acc).

(** One plan instruction at position [i] (lines 94-324). *)
Definition plan_step (kin : Kin) (plan_profiles : gmap string PlanProfile)
    (seed : list Instruction) (i : nat) (plan_instruction : PlanInstruction) (acc : Acc)
  : GRes Acc :=
  let! seed_i := (match nth_error seed i with Some x => GOk x | None => GFault end) in
  let! seed_composite :=
    (match seed_i with CompositeInstruction _ _ _ c => GOk c | _ => GFault end) in
  let interpolate_cnt := Z.of_nat (length seed_composite) in
  let cur_plan_profile := plan_profile_of plan_profiles (plan_profile plan_instruction) in
  let! first :=
    (if found_plan_instruction acc
     then GOk (acc, interpolate_cnt, 1, 0)
     else
       let! s0 := seed_at seed_composite 0 in
       let! pos := seed_position s0 in
       let acc := push_seed pos acc in
       let! target :=
         (match waypoint_target (start_waypoint acc) with
          | Some t => GOk t
          | None => GThrow msg_start_unknown
          end) in
       GOk (incr_index (apply_profile cur_plan_profile target plan_instruction acc),
            (interpolate_cnt - 1)%Z, 0, 1)) in
  let '(acc, interpolate_cnt, cartesian_shift, freespace_shift) := first in
  let tcp := plan_tcp plan_instruction in
  let! acc :=
    (if isLinear plan_instruction then
       match plan_waypoint plan_instruction with
       | CartesianWaypoint c =>
           let! prev := prev_pose_of kin (start_waypoint acc) tcp in
           linear_points cur_plan_profile plan_instruction seed_composite cartesian_shift
             prev (PCart c) interpolate_cnt (TPose (PCart c)) acc
       | JointWaypoint q n =>
           let! cur := fk_pose kin q tcp in
           let! prev := prev_pose_of kin (start_waypoint acc) tcp in
           linear_points cur_plan_profile plan_instruction seed_composite cartesian_shift
             prev cur interpolate_cnt (TJoint q n) acc
       | _ => GThrow msg_wp_unknown
       end
     else if isFreespace plan_instruction then
       let! acc :=
         (match plan_waypoint plan_instruction with
          | JointWaypoint q n =>
              freespace_points cur_plan_profile plan_instruction seed_composite
                freespace_shift (TJoint q n) acc
          | CartesianWaypoint c =>
              freespace_points cur_plan_profile plan_instruction seed_composite
                freespace_shift (TPose (PCart c)) acc
          | _ => GThrow msg_wp_unknown
          end) in
       GOk (incr_index acc)
     else GThrow msg_unsupported) in
  GOk (finish_plan (plan_waypoint plan_instruction) acc).

(** [for (i = 0; i < request.instructions.size(); ++i)]: non-plan
    instructions are skipped. *)
Fixpoint plan_loop (kin : Kin) (plan_profiles : gmap string PlanProfile)
    (seed : list Instruction) (i : nat) (l : list Instruction) (acc : Acc) : GRes Acc :=
  match l with
  | [] => GOk acc
  | PlanInstr p :: rest =>
      let! acc := plan_step kin plan_profiles seed i p acc in
      plan_loop kin plan_profiles seed (S i) rest acc
  | _ :: rest => plan_loop kin plan_profiles seed (S i) rest acc
  end.

(** [pci->kin->getTipLinkName()] on the pointer returned by
    [getManipulator]. *)
Definition getTipLinkName (kin : option Kin) : GRes string :=
  match kin with Some k => GOk (kin_tip_link k) | None => GFault end.

Definition DefaultTrajoptProblemGenerator (request : PlannerRequest)
    (plan_profiles : gmap string PlanProfile)
    (composite_profiles : gmap string CompositeProfile) : GRes Problem :=
  let kin := kin_map (req_tesseract request) !! req_manipulator request in
  let! _link := getTipLinkName kin in
  match kin with
  | None => GThrow msg_no_manip
  | Some k =>
      if existsb isCompositeInstruction (instr_children request) then GThrow msg_child_composite
      else
        let env := environment (req_tesseract request) in
        let active_links := env_active_links env (kin_active_link_names k) in
        let sw := start_waypoint_of env k request in
        let! acc := plan_loop k plan_profiles (req_seed request) 0 (instr_children request)
                      (mkAcc 0 false sw [] [] []) in
        let n_steps := index acc in
        (* [init_info.data.row(i) = seed_states[i]] for [i < n_steps] *)
        if (Z.of_nat (length (seed_states acc)) <? n_steps)%Z then GFault
        else
          let cur_composite_profile := composite_profile_of composite_profiles (instr_profile request) in
          GOk (mkProblem n_steps (req_manipulator request) (applied acc) (fixed_steps acc)
                 (firstn (Z.to_nat n_steps) (seed_states acc)) cur_composite_profile
                 (0, n_steps - 1)%Z active_links)
  end.

End TrajoptGenerator.

(** ** DiscreteContactCheckTask (discrete_contact_check_task.h) *)

Module DiscreteContactCheck.

Definition INPUT_PROGRAM_PORT : string := "program".
Definition INPUT_ENVIRONMENT_PORT : string := "environment".
Definition INPUT_PROFILES_PORT : string := "profiles".
Definition INPUT_MANIP_INFO_PORT : string := "manip_info".
Definition INPUT_COMPOSITE_PROFILE_REMAPPING_PORT : string := "composite_profile_remapping".

Record TaskComposerNodePorts := mkPorts {
  input_required : list string;
  input_optional : list string;
  output_required : list string;
  output_optional : list string }.

(** Modelled from the spec: [DiscreteContactCheckTask::ports()], whose body
    (discrete_contact_check_task.cpp) is not among the sources. The header
    declares exactly five port names, three under "Requried" and two under
    "Optional", all of them input ports; a contact check only reads. *)
Definition ports : TaskComposerNodePorts :=
  mkPorts [INPUT_PROGRAM_PORT; INPUT_ENVIRONMENT_PORT; INPUT_PROFILES_PORT]
          [INPUT_MANIP_INFO_PORT; INPUT_COMPOSITE_PROFILE_REMAPPING_PORT]
          [] [].

(** [DiscreteContactCheckTaskInfo]: the common Node Info fields (status
    code and message) with the environment used and the per-segment
    contact results. *)
Record DiscreteContactCheckTaskInfo {Value ContactResultMap : Type} := mkInfo {
  status_code : Z;
  status_message : string;
  env : option Value;
  contact_results : list ContactResultMap }.
Arguments DiscreteContactCheckTaskInfo : clear implicits.

(** Modelled from the spec: [DiscreteContactCheckTask::runImpl], whose body
    (discrete_contact_check_task.cpp) is not among the sources. It resolves
    the program, environment and profiles ports through the key binding
    [key_of] in the context's data storage, runs the discrete collision
    queries [contact_check] along the program (success flag and per-segment
    contact results), and records the results and the environment used in
    its Node Info; it returns the data storage it was given. A missing
    required input is a failure. *)
Definition runImpl {Value ContactResultMap : Type}
    (contact_check : Value -> Value -> bool * list ContactResultMap)
    (key_of : string -> string) (data_storage : gmap string Value)
  : DiscreteContactCheckTaskInfo Value ContactResultMap * gmap string Value :=
  match data_storage !! key_of INPUT_PROGRAM_PORT,
        data_storage !! key_of INPUT_ENVIRONMENT_PORT,
        data_storage !! key_of INPUT_PROFILES_PORT with
  | Some program, Some environment, Some _ =>
      let '(contact_free, results) := contact_check program environment in
      if contact_free
      then (mkInfo _ _ 1 "Discrete contact check succeeded" (Some environment) results,
            data_storage)
      else (mkInfo _ _ 0 "Results are not contact free" (Some environment) results,
            data_storage)
  | _, _, _ => (mkInfo _ _ 0 "Missing input" None [], data_storage)
  end.

End DiscreteContactCheck.

(** ** Concrete programs used by the examples below *)

Module Samples.
Import RasterOnly.

(** A segment composite holding one linear plan instruction. *)
Definition segment (d : string) : Instruction :=
  CompositeInstruction d "" NullInstruction
    [PlanInstr (mkPlan (CartesianWaypoint 0) LINEAR "" 0 (d +:+ "/plan"))].

(** A top-level program with its own start plan instruction. *)
Definition program (children : list Instruction) : ProcessInput :=
  mkInput true
    (CompositeInstruction "program" "" (PlanInstr (mkPlan (CartesianWaypoint 0) START "" 0 "start"))
       children)
    [] SNone SNone.

(** Raster, transition, raster. *)
Definition rtr : ProcessInput :=
  program [segment "raster 0"; segment "transition 0"; segment "raster 1"].

(** Raster, transition: an even number of segments. *)
Definition rt : ProcessInput :=
  program [segment "raster 0"; segment "transition 0"].

Definition fresh : RasterOnlyTaskflow := mkROT "RasterOnlyTaskflow" empty_taskflow [] [] [].

(** Number of invocations of the user callback [cb] in an event log. *)
Fixpoint invocations (cb : nat) (l : list Event) : nat :=
  match l with
  | [] => 0
  | EvInvoke c :: rest => (if Nat.eqb c cb then 1 else 0) + invocations cb rest
  | _ :: rest => invocations cb rest
  end.

End Samples.

(** Sample planner requests. *)
Module TrajoptSamples.
Import TrajoptGenerator.

(** A two-joint manipulator whose forward kinematics succeeds, and one
    whose forward kinematics always fails. *)
Definition kin_ok : Kin :=
  mkKin "tool0" "base_link" ["joint_1"; "joint_2"] ["link_1"; "link_2"]
    (fun q => Some (fold_right Z.add 0%Z q)).
Definition kin_no_fk : Kin :=
  mkKin "tool0" "base_link" ["joint_1"; "joint_2"] ["link_1"; "link_2"] (fun _ => None).

Definition env0 : Environment := mkEnv (fun _ => 0%Z) (fun l => l).

(** A tesseract whose [kin_map] holds [kin] under ["manipulator"], or
    nothing. *)
Definition tesseract_with (kin : option Kin) : Tesseract :=
  mkTesseract (match kin with Some k => {[ "manipulator" := k ]} | None => ∅ end) env0.

Definition freespace_plan (profile : string) : PlanInstruction :=
  mkPlan (JointWaypoint [1; 1]%Z ["joint_1"; "joint_2"]) FREESPACE profile 0 "freespace".
Definition linear_joint_plan : PlanInstruction :=
  mkPlan (JointWaypoint [1; 1]%Z ["joint_1"; "joint_2"]) LINEAR "" 0 "linear".
Definition state_start : Instruction :=
  PlanInstr (mkPlan (StateWaypoint ["joint_1"] [0%Z]) START "" 0 "start").

(** A seed segment of three move instructions. *)
Definition seed_segment : Instruction :=
  CompositeInstruction "seed" "" NullInstruction
    [MoveInstruction [0; 0]%Z "s0"; MoveInstruction [0; 1]%Z "s1"; MoveInstruction [1; 1]%Z "s2"].

Definition request (kin : option Kin) (start : Instruction) (children : list Instruction)
  : PlannerRequest :=
  mkRequest (tesseract_with kin) "manipulator" "" start children (map (fun _ => seed_segment) children).

(** No kinematics for the manipulator. *)
Definition req_no_kin : PlannerRequest := request None NullInstruction [PlanInstr (freespace_plan "")].
(** No start waypoint. *)
Definition req_no_start : PlannerRequest :=
  request (Some kin_ok) NullInstruction [PlanInstr (freespace_plan "")].
(** A start waypoint of a type the generator does not know. *)
Definition req_state_start : PlannerRequest :=
  request (Some kin_ok) state_start [PlanInstr (freespace_plan "")].
(** A linear move to a joint waypoint whose forward kinematics fails. *)
Definition req_fk_fail : PlannerRequest :=
  request (Some kin_no_fk) NullInstruction [PlanInstr linear_joint_plan].

(** Freespace, linear, freespace. *)
Definition req_mixed : PlannerRequest :=
  request (Some kin_ok) NullInstruction
    [PlanInstr (freespace_plan ""); PlanInstr linear_joint_plan; PlanInstr (freespace_plan "")].

End TrajoptSamples.

(** The observable shape of a composed task: its name, the sub-generator
    it is composed of and the index path of its process input; and the
    shapes of the raster task [k] and the transition task [j] over the
    segments [children]. *)
Module TaskShape.
Import RasterOnly.

Definition shape (t : Task) : string * GenKind * list nat :=
  (task_name t, task_gen t, instruction_indice (task_input t)).

Definition rexp (children : list Instruction) (k : nat) : string * GenKind * list nat :=
  ("Raster #" +:+ pretty k +:+ ": " +:+ getDescription (nth (2 * k) children NullInstruction),
   RasterGen, [2 * k]).

Definition texp (children : list Instruction) (j : nat) : string * GenKind * list nat :=
  ("Transition #" +:+ pretty j +:+ ": " +:+ getDescription (nth (2 * j + 1) children NullInstruction),
   TransitionGen, [2 * j + 1]).

End TaskShape.

(** ** Loop invariants and expected shapes used by the properties below *)

Module TrajoptSteps.
Import TrajoptGenerator.

(** The bookkeeping [DefaultTrajoptProblemGenerator] keeps between plan
    instructions: as many seed states as steps ([index]), the applied
    costs and constraints at strictly increasing steps below [index], and
    the fixed steps strictly increasing, below [index] and each one a step
    where a profile was applied. *)
Definition steps_ok (acc : Acc) : Prop :=
  (0 <= index acc)%Z
  /\ Z.of_nat (length (seed_states acc)) = index acc
  /\ StronglySorted Z.lt (map ap_index (applied acc))
  /\ Forall (fun i => 0 <= i < index acc)%Z (map ap_index (applied acc))
  /\ StronglySorted Z.lt (fixed_steps acc)
  /\ Forall (fun i => 0 <= i < index acc)%Z (fixed_steps acc)
  /\ Forall (fun i => i ∈ map ap_index (applied acc)) (fixed_steps acc).

End TrajoptSteps.

Module RasterOnlyHistory.
Import RasterOnly.

(** The object [s] with older transition task ids [tt] and older log
    entries [lg] in front of its own. *)
Definition prepend (tt : list nat) (lg : list Event) (s : RasterOnlyTaskflow) : RasterOnlyTaskflow :=
  mkROT (name_ s) (taskflow_ s) (raster_tasks_ s) (tt ++ transition_tasks_ s) (lg ++ log_ s).

(** The outcome of a computation with its final object mapped by [f]. *)
Definition res_map {A} (f : RasterOnlyTaskflow -> RasterOnlyTaskflow) (r : Res A) : Res A :=
  match r with
  | ROk a s => ROk a (f s)
  | RThrow msg s => RThrow msg (f s)
  | RFault => RFault
  end.

(** A freshly constructed [RasterOnlyTaskflow] named [name]. *)
Definition constructed (name : string) : RasterOnlyTaskflow :=
  mkROT name empty_taskflow [] [] [].

(** The object [s] with the log entries of [s'] appended to its own. *)
Definition extend_log (s s' : RasterOnlyTaskflow) : RasterOnlyTaskflow :=
  mkROT (name_ s) (taskflow_ s) (raster_tasks_ s) (transition_tasks_ s) (log_ s ++ log_ s').

(** [m] does not look at the older transition task ids and log entries. *)
Definition frame {A} (m : M A) : Prop :=
  forall tt lg s, m (prepend tt lg s) = res_map (prepend tt lg) (m s).

End RasterOnlyHistory.

Module TaskInputs.
Import RasterOnly.

(** A raster task for segment [idx] (even): its input is [input[idx]]
    whose start instruction is the START-typed plan instruction [p], which
    is the composite's own start instruction for [idx = 0] and the last
    plan instruction of segment [idx - 1] otherwise; its name and both
    callbacks carry the segment's description. *)
Definition raster_task_of (input : ProcessInput) (done_cb error_cb : option nat) (t : Task)
  : Prop :=
  exists idx p ri,
    Nat.even idx = true
    /\ getInstruction (input_at input idx) = Found ri
    /\ ((idx = 0 /\ exists ii, getInstruction input = Found ii /\ composite_start ii = PlanInstr p)
        \/ (idx <> 0 /\ exists pi, getInstruction (input_at input (idx - 1)) = Found pi
                                  /\ getLastPlanInstruction pi = Some p))
    /\ t = mkTask (raster_name idx (getDescription ri)) RasterGen
             (setStartInstruction (input_at input idx) (SInstr (PlanInstr (setPlanType p START))))
             (getDescription ri, done_cb) (getDescription ri, error_cb).

(** A transition task for segment [idx] (odd): its input is [input[idx]]
    starting at index [idx - 1] and ending at index [idx + 1]; its name
    (transition [idx / 2]) and both callbacks carry the segment's
    description. *)
Definition transition_task_of (input : ProcessInput) (done_cb error_cb : option nat) (t : Task)
  : Prop :=
  exists idx ti,
    Nat.odd idx = true
    /\ getInstruction (input_at input idx) = Found ti
    /\ t = mkTask (transition_name (idx / 2) (getDescription ti)) TransitionGen
             (setEndInstruction (setStartInstruction (input_at input idx) (SIndices [idx - 1]))
                (SIndices [idx + 1]))
             (getDescription ti, done_cb) (getDescription ti, error_cb).

(** What [generateTaskflow] keeps between the iterations of its loops:
    every task is a raster or a transition task of the input, the raster
    task list holds raster tasks, and every edge runs from a raster task
    into a transition task. *)
Definition gen_ok (input : ProcessInput) (done_cb error_cb : option nat) (s : RasterOnlyTaskflow)
  : Prop :=
  let ts := tf_tasks (taskflow_ s) in
  Forall (fun t => raster_task_of input done_cb error_cb t \/ transition_task_of input done_cb error_cb t) ts
  /\ Forall (fun id => exists t, nth_error ts id = Some t /\ task_gen t = RasterGen) (raster_tasks_ s)
  /\ Forall (fun e => (exists t, nth_error ts (fst e) = Some t /\ task_gen t = RasterGen)
                   /\ (exists t, nth_error ts (snd e) = Some t /\ task_gen t = TransitionGen))
       (tf_edges (taskflow_ s)).

End TaskInputs.

(** * Properties of RasterOnlyTaskflow *)

Module RasterOnlyProofs.
Import RasterOnly Samples.
Import TaskShape.

(** Unfold the monad operations of [RasterOnly] and reduce, leaving the
    arithmetic and the string building alone. *)
Ltac mon := unfold bind, ret, gets, modify, of_option, of_lookup, throw, fault, emit, set_taskflow,
  set_raster_tasks, set_transition_tasks, composed_of, succeed, raster_task_at,
  push_raster, push_transition in *;
  cbn -[pretty String.append nth_error seq app Nat.mul Nat.sub Nat.eqb] in *.

Lemma bind_ok {A B} (m : M A) (k : A -> M B) s a s' :
  m s = ROk a s' -> bind m k s = k a s'.
Proof. intros H. unfold bind. rewrite H. reflexivity. Qed.

(** C3: on a sub-taskflow failure, [failureCallback] first aborts the
    transition generator and then the raster generator, logs the failure,
    and only then invokes the outer failure callback, when one was
    supplied; nothing else of the object changes. *)
Theorem failureCallback_aborts_siblings_first (message : string) (user_callback : option nat)
    (s : RasterOnlyTaskflow) :
  failureCallback message user_callback s =
  ROk tt (mkROT (name_ s) (taskflow_ s) (raster_tasks_ s) (transition_tasks_ s)
            (log_ s ++ [EvAbort TransitionGen; EvAbort RasterGen;
                        EvLogError (name_ s +:+ " Failure: " +:+ message)]
                    ++ match user_callback with Some cb => [EvInvoke cb] | None => [] end)).
Proof.
  destruct s as [nm tf rt tt' lg].
  destruct user_callback as [cb|];
    unfold failureCallback, emit, modify, gets, bind, ret; cbn;
    rewrite <- !app_assoc; reflexivity.
Qed.

(** C2: each failing sub-taskflow fires its own failure callback. In the
    raster, transition, raster program, when both rasters fail, the outer
    failure callback is invoked twice, once per failure, and each failure
    message names the failing segment's description. *)
Theorem two_failed_rasters_two_failure_callbacks :
  match (let* _tf := generateTaskflow rtr (Some 1) (Some 2) in
         run_completions [(0, false); (1, false)]) fresh with
  | ROk _ s =>
      log_ s = [EvClear TransitionGen; EvClear RasterGen;
                EvAbort TransitionGen; EvAbort RasterGen;
                EvLogError "RasterOnlyTaskflow Failure: raster 0"; EvInvoke 2;
                EvAbort TransitionGen; EvAbort RasterGen;
                EvLogError "RasterOnlyTaskflow Failure: raster 1"; EvInvoke 2]
      /\ invocations 2 (log_ s) = 2
  | _ => False
  end.
Proof. vm_compute. split; reflexivity. Qed.

(** C6: [clear()] empties the taskflow and the raster task list but keeps
    the transition task list: after one generation of the raster,
    transition, raster program, [clear()] leaves the stale transition task
    in [transition_tasks_], and generating again yields the same taskflow
    while [transition_tasks_] now holds the transition twice. *)
Theorem clear_keeps_transition_tasks :
  match generateTaskflow rtr None None fresh with
  | ROk tf1 s1 =>
      match clear s1, generateTaskflow rtr None None s1 with
      | ROk _ c1, ROk tf2 s2 =>
          tf_tasks (taskflow_ c1) = [] /\ raster_tasks_ c1 = [] /\
          transition_tasks_ c1 = [2] /\
          tf2 = tf1 /\ transition_tasks_ s2 = [2; 2]
      | _, _ => False
      end
  | _ => False
  end.
Proof. vm_compute. repeat split. Qed.

(** C1: with an even number of segments the last (odd-index) segment gets
    no transition task: the raster, transition program passes validation
    and yields a single raster task. *)
Lemma even_segments_last_transition_dropped :
  checkProcessInput rt fresh = ROk true fresh /\
  match generateTaskflow rt None None fresh with
  | ROk tf _ =>
      map (fun t => (task_gen t, instruction_indice (task_input t))) (tf_tasks tf)
      = [(RasterGen, [0])] /\ tf_edges tf = []
  | _ => False
  end.
Proof. vm_compute. repeat split. Qed.

Section Topology.
Variables (d pr : string) (p0 : PlanInstruction) (children : list Instruction)
  (s0 e0 : StartSpec) (done_cb error_cb : option nat).
Let input := mkInput true (CompositeInstruction d pr (PlanInstr p0) children) [] s0 e0.
Hypothesis Hlast : forall i c, nth_error children i = Some c -> Nat.odd i = true ->
  S i < length children -> getLastPlanInstruction c <> None.

Let rexp := rexp children.
Let texp := texp children.

Lemma raster_step_spec k s : 2*k < length children ->
  exists t, raster_step input done_cb error_cb (2*k) s =
    ROk tt (mkROT (name_ s) (mkTaskflow (tf_tasks (taskflow_ s) ++ [t]) (tf_edges (taskflow_ s)))
              (raster_tasks_ s ++ [length (tf_tasks (taskflow_ s))]) (transition_tasks_ s) (log_ s))
    /\ shape t = rexp k.
Proof.
  intros Hk.
  destruct (nth_error children (2*k)) as [c|] eqn:Ec;
    [|apply nth_error_None in Ec; lia].
  assert (Hstart : exists st, raster_start_instruction input (2*k) s = ROk st s).
  { unfold raster_start_instruction. mon.
    destruct (2*k =? 0) eqn:E0; cbn -[Nat.mul Nat.sub nth_error].
    - eexists; reflexivity.
    - destruct (nth_error children (2*k-1)) as [c'|] eqn:Ec';
        [|apply nth_error_None in Ec'; lia].
      cbn. destruct (getLastPlanInstruction c') as [li|] eqn:Eli.
      + cbn. eexists; reflexivity.
      + exfalso. apply (Hlast (2*k-1) c'); auto.
        * apply Nat.eqb_neq in E0. rewrite <- Nat.negb_even. 
          replace (2*k-1) with (S (2*(k-1))) by lia.
          rewrite Nat.even_succ, Nat.odd_mul. reflexivity.
        * apply Nat.eqb_neq in E0. lia. }
  destruct Hstart as [st Hst].
  unfold raster_step. mon. rewrite Hst. cbn -[Nat.mul nth_error pretty String.append].
  rewrite Ec. mon.
  eexists. split; [reflexivity|].
  assert (Hd : 2 * k / 2 = k) by (rewrite Nat.mul_comm; apply Nat.div_mul; lia).
  unfold shape, rexp, TaskShape.rexp, raster_name. cbn -[Nat.div Nat.mul pretty String.append].
  rewrite Hd, (nth_error_nth _ _ _ Ec). reflexivity.
Qed.

Lemma input_size_eq : input_size input = length children.
Proof. reflexivity. Qed.

Lemma raster_loop_spec c : forall k fuel s, c <= fuel ->
  (forall k', k <= k' -> (2 * k' < length children <-> k' < k + c)) ->
  exists ts, raster_loop input done_cb error_cb fuel (2 * k) s =
    ROk tt (mkROT (name_ s) (mkTaskflow (tf_tasks (taskflow_ s) ++ ts) (tf_edges (taskflow_ s)))
              (raster_tasks_ s ++ seq (length (tf_tasks (taskflow_ s))) c)
              (transition_tasks_ s) (log_ s))
    /\ map shape ts = map rexp (seq k c).
Proof.
  induction c as [|c IH]; intros k fuel s Hf Hb.
  - exists []. rewrite !app_nil_r. destruct fuel as [|fuel]; cbn [raster_loop].
    + destruct s as [? [? ?] ? ? ?]; split; reflexivity.
    + assert (Hn : ~ 2 * k < length children) by (rewrite Hb; lia).
      rewrite input_size_eq. apply Nat.ltb_nlt in Hn. rewrite Hn.
      destruct s as [? [? ?] ? ? ?]; split; reflexivity.
  - destruct fuel as [|fuel]; [lia|].
    assert (Hk : 2 * k < length children) by (apply Hb; lia).
    destruct (raster_step_spec k s Hk) as [t [Hs Ht]].
    destruct (IH (S k) fuel
      (mkROT (name_ s) (mkTaskflow (tf_tasks (taskflow_ s) ++ [t]) (tf_edges (taskflow_ s)))
         (raster_tasks_ s ++ [length (tf_tasks (taskflow_ s))]) (transition_tasks_ s) (log_ s)))
      as [ts [Hl Hts]]; [lia| intros k' Hk'; rewrite Hb; lia |].
    exists (t :: ts). cbn [raster_loop].
    rewrite input_size_eq. apply Nat.ltb_lt in Hk. rewrite Hk. unfold bind at 1. rewrite Hs.
    replace (2 * k + 2) with (2 * S k) by lia. rewrite Hl. cbn [name_ taskflow_ tf_tasks tf_edges raster_tasks_ transition_tasks_ log_]. split.
    + rewrite <- !app_assoc. rewrite length_app. cbn. rewrite Nat.add_1_r. reflexivity.
    + cbn. rewrite Ht, Hts. reflexivity.
Qed.

Lemma seq_at (r j : nat) : j < r -> nth_error (seq 0 r) j = Some j.
Proof.
  intros H. rewrite (nth_error_nth' _ 0) by (rewrite length_seq; lia).
  rewrite seq_nth by lia. reflexivity.
Qed.

Lemma transition_step_spec r j s : 2 * j + 1 < length children -> j + 1 < r ->
  raster_tasks_ s = seq 0 r -> length (tf_tasks (taskflow_ s)) = r + j ->
  exists t, transition_step input done_cb error_cb 0 (2 * j + 1) j s =
    ROk tt (mkROT (name_ s)
              (mkTaskflow (tf_tasks (taskflow_ s) ++ [t])
                 (tf_edges (taskflow_ s) ++ [(j, r + j); (j + 1, r + j)]))
              (raster_tasks_ s) (transition_tasks_ s ++ [r + j]) (log_ s))
    /\ shape t = texp j.
Proof.
  intros Hj Hr Hrt Hlen.
  destruct (nth_error children (2 * j + 1)) as [c|] eqn:Ec;
    [|apply nth_error_None in Ec; lia].
  remember (2 * j + 1) as m eqn:Em.
  destruct s as [nm [tks eds] rts tts lg]; cbn in Hrt, Hlen |- *; subst rts.
  unfold transition_step. mon. cbn [app follow]. rewrite Ec. mon.
  rewrite seq_at by lia. mon. rewrite seq_at by lia. mon.
  rewrite Hlen. eexists. split.
  - rewrite <- !app_assoc. reflexivity.
  - unfold shape, texp, TaskShape.texp, transition_name. cbn -[pretty String.append Nat.mul].
    rewrite <- Em, (nth_error_nth _ _ _ Ec). reflexivity.
Qed.

Lemma transition_loop_spec r c : forall j fuel s, c <= fuel ->
  (c = 0 \/ j + c < r) ->
  (forall j', j <= j' ->
     ((Z.of_nat (2 * j' + 1) <? size_t_sub (length children) 1)%Z = true <-> j' < j + c)) ->
  (forall j', j <= j' < j + c -> 2 * j' + 1 < length children) ->
  raster_tasks_ s = seq 0 r -> length (tf_tasks (taskflow_ s)) = r + j ->
  exists ts, transition_loop input done_cb error_cb 0 fuel (2 * j + 1) j s =
    ROk tt (mkROT (name_ s)
              (mkTaskflow (tf_tasks (taskflow_ s) ++ ts)
                 (tf_edges (taskflow_ s) ++
                  flat_map (fun j' => [(j', r + j'); (j' + 1, r + j')]) (seq j c)))
              (raster_tasks_ s) (transition_tasks_ s ++ seq (r + j) c) (log_ s))
    /\ map shape ts = map texp (seq j c).
Proof.
  induction c as [|c IH]; intros j fuel s Hf Hr Hb Hin Hrt Hlen.
  - exists []. rewrite !app_nil_r. destruct fuel as [|fuel]; cbn [transition_loop].
    + destruct s as [? [? ?] ? ? ?]; split; reflexivity.
    + assert (Hn : (Z.of_nat (2 * j + 1) <? size_t_sub (length children) 1)%Z = false).
      { destruct (Z.of_nat (2 * j + 1) <? size_t_sub (length children) 1)%Z eqn:E; [|reflexivity].
        apply Hb in E; lia. }
      rewrite input_size_eq, Hn. destruct s as [? [? ?] ? ? ?]; split; reflexivity.
  - destruct fuel as [|fuel]; [lia|].
    assert (Hc : (Z.of_nat (2 * j + 1) <? size_t_sub (length children) 1)%Z = true)
      by (apply Hb; lia).
    destruct (transition_step_spec r j s) as [t [Hs Ht]]; [apply Hin; lia | lia | exact Hrt | exact Hlen |].
    destruct (IH (j + 1) fuel
      (mkROT (name_ s)
         (mkTaskflow (tf_tasks (taskflow_ s) ++ [t])
            (tf_edges (taskflow_ s) ++ [(j, r + j); (j + 1, r + j)]))
         (raster_tasks_ s) (transition_tasks_ s ++ [r + j]) (log_ s)))
      as [ts [Hl Hts]];
      [lia | lia | intros j' Hj'; rewrite Hb; lia | intros j' Hj'; apply Hin; lia
      | exact Hrt | cbn; rewrite length_app; cbn; lia |].
    exists (t :: ts). cbn [transition_loop].
    rewrite input_size_eq, Hc. unfold bind at 1. rewrite Hs.
    replace (2 * j + 1 + 2) with (2 * (j + 1) + 1) by lia.
    rewrite Hl. rewrite Nat.add_1_r in Hts. cbn [name_ taskflow_ tf_tasks tf_edges raster_tasks_ transition_tasks_ log_].
    split.
    + cbn [seq flat_map]. rewrite <- !app_assoc. cbn [app].
      repeat f_equal; lia.
    + cbn. rewrite Ht, Hts. reflexivity.
Qed.

(** The loop bound [input.size() - 1] of the transition loop, when it does
    not wrap around. *)
Lemma size_t_sub_1 (n : nat) : 1 <= n -> (Z.of_nat n < 2 ^ 64)%Z ->
  size_t_sub n 1 = Z.of_nat (n - 1).
Proof.
  intros H1 H2. unfold size_t_sub. rewrite Nat2Z.inj_sub by lia.
  apply Z.mod_small. lia.
Qed.

Lemma check_ok s : Forall (fun c => isCompositeInstruction c = true) children ->
  checkProcessInput input s = ROk true s.
Proof.
  intros Hc. unfold checkProcessInput, of_lookup, bind, ret. cbn -[forallb].
  replace (forallb isCompositeInstruction children) with true; [reflexivity|].
  symmetry. apply forallb_forall. intros x Hx. rewrite Forall_forall in Hc. apply Hc, list_elem_of_In, Hx.
Qed.

Lemma generate_topology s :
  1 <= length children -> (Z.of_nat (length children) < 2 ^ 64)%Z ->
  Forall (fun c => isCompositeInstruction c = true) children ->
  exists s', generateTaskflow input done_cb error_cb s = ROk (taskflow_ s') s'
    /\ map shape (tf_tasks (taskflow_ s')) =
        map rexp (seq 0 ((length children + 1) / 2)) ++ map texp (seq 0 ((length children - 1) / 2))
    /\ tf_edges (taskflow_ s') =
        flat_map (fun j => [(j, (length children + 1) / 2 + j); (j + 1, (length children + 1) / 2 + j)])
          (seq 0 ((length children - 1) / 2))
    /\ raster_tasks_ s' = seq 0 ((length children + 1) / 2)
    /\ transition_tasks_ s' = transition_tasks_ s ++ seq ((length children + 1) / 2) ((length children - 1) / 2).
Proof.
  intros H1 H64 Hc.
  set (n := length children) in *.
  set (R := (n + 1) / 2). set (T := (n - 1) / 2).
  assert (HR : forall k, 2 * k < n <-> k < R).
  { intros k. subst R. pose proof (Nat.div_mod (n + 1) 2). pose proof (Nat.mod_upper_bound (n + 1) 2). lia. }
  assert (HT : forall j, 2 * j + 1 < n - 1 <-> j < T).
  { intros j. subst T. pose proof (Nat.div_mod (n - 1) 2). pose proof (Nat.mod_upper_bound (n - 1) 2). lia. }
  assert (HRT : R = S T).
  { subst R T. pose proof (Nat.div_mod (n + 1) 2). pose proof (Nat.mod_upper_bound (n + 1) 2).
    pose proof (Nat.div_mod (n - 1) 2). pose proof (Nat.mod_upper_bound (n - 1) 2). lia. }
  unfold generateTaskflow. rewrite (bind_ok _ _ _ _ _ (check_ok s Hc)). cbn beta iota delta [negb].
  destruct s as [nm tf rts tts lg].
  set (s1 := mkROT nm (mkTaskflow [] []) [] tts ((lg ++ [EvClear TransitionGen]) ++ [EvClear RasterGen])).
  assert (Hclear : clear (mkROT nm tf rts tts lg) = ROk tt s1) by reflexivity.
  destruct (raster_loop_spec R 0 (S (input_size input)) s1) as [tr [Hr Htr]].
  { rewrite input_size_eq. fold n. subst R. pose proof (Nat.div_mod (n + 1) 2). lia. }
  { intros k' _. fold n. rewrite HR. lia. }
  cbn [name_ taskflow_ tf_tasks tf_edges raster_tasks_ transition_tasks_ log_ s1 app length] in Hr.
  assert (Hlen : length tr = R).
  { apply (f_equal (@length _)) in Htr. rewrite !length_map, length_seq in Htr. exact Htr. }
  destruct (transition_loop_spec R T 0 (S (input_size input))
              (mkROT nm (mkTaskflow tr []) (seq 0 R) tts ((lg ++ [EvClear TransitionGen]) ++ [EvClear RasterGen])))
    as [tt' [Ht Htt]].
  { rewrite input_size_eq. fold n. subst T. pose proof (Nat.div_mod (n - 1) 2). lia. }
  { lia. }
  { intros j' _. fold n. rewrite size_t_sub_1 by lia. rewrite Z.ltb_lt, <- Nat2Z.inj_lt, HT. lia. }
  { intros j' Hj'. fold n. assert (j' < T) by lia. apply HT in H. lia. }
  { reflexivity. }
  { cbn [taskflow_ tf_tasks]. lia. }
  change (2 * 0) with 0 in Hr. change (2 * 0 + 1) with 1 in Ht.
  eexists. split.
  - unfold bind at 1. rewrite Hclear. unfold bind at 1, gets. cbn [raster_tasks_ s1 length].
    unfold bind at 1. rewrite Hr. unfold bind at 1. rewrite Ht. reflexivity.
  - cbn [name_ taskflow_ tf_tasks tf_edges raster_tasks_ transition_tasks_ log_ app].
    rewrite map_app, Htr, Htt. repeat split. all: rewrite ?Nat.add_0_r; reflexivity.
Qed.

End Topology.

(** C1 (amended): for a top-level input whose program has a start plan
    instruction and [N >= 1] composite segments (and [N] below [2^64]), in
    which every odd segment followed by another one holds a plan
    instruction, [generateTaskflow] returns the outer taskflow made of the
    raster tasks of the even segments [0, 2, ..., 2(R-1)] followed by the
    transition tasks of the odd segments [1, 3, ..., 2T-1], where
    [R = (N+1)/2] and [T = (N-1)/2]; the only edges are the two edges from
    rasters [j] and [j+1] into transition [j], so rasters have no
    predecessors. When [N] is even, the last odd segment [N-1] gets no
    transition task. *)
Theorem raster_transition_topology (d pr : string) (p0 : PlanInstruction)
    (children : list Instruction) (s0 e0 : StartSpec) (done_cb error_cb : option nat)
    (s : RasterOnlyTaskflow) :
  1 <= length children -> (Z.of_nat (length children) < 2 ^ 64)%Z ->
  Forall (fun c => isCompositeInstruction c = true) children ->
  (forall i c, nth_error children i = Some c -> Nat.odd i = true ->
     S i < length children -> getLastPlanInstruction c <> None) ->
  exists s',
    generateTaskflow (mkInput true (CompositeInstruction d pr (PlanInstr p0) children) [] s0 e0)
      done_cb error_cb s = ROk (taskflow_ s') s'
    /\ map shape (tf_tasks (taskflow_ s')) =
        map (rexp children) (seq 0 ((length children + 1) / 2))
        ++ map (texp children) (seq 0 ((length children - 1) / 2))
    /\ tf_edges (taskflow_ s') =
        flat_map (fun j => [(j, (length children + 1) / 2 + j); (j + 1, (length children + 1) / 2 + j)])
          (seq 0 ((length children - 1) / 2))
    /\ raster_tasks_ s' = seq 0 ((length children + 1) / 2)
    /\ transition_tasks_ s' =
        transition_tasks_ s ++ seq ((length children + 1) / 2) ((length children - 1) / 2).
Proof.
  intros H1 H64 Hc Hl. exact (generate_topology d pr p0 children s0 e0 done_cb error_cb Hl s H1 H64 Hc).
Qed.

Lemma raster_transition_topology_witness :
  (1 <= 3 /\ (Z.of_nat 3 < 2 ^ 64)%Z) /\
  exists s',
    generateTaskflow rtr None None fresh = ROk (taskflow_ s') s'
    /\ map shape (tf_tasks (taskflow_ s')) =
        [("Raster #0: raster 0", RasterGen, [0]); ("Raster #1: raster 1", RasterGen, [2]);
         ("Transition #0: transition 0", TransitionGen, [1])]
    /\ tf_edges (taskflow_ s') = [(0, 2); (1, 2)]
    /\ raster_tasks_ s' = [0; 1]
    /\ transition_tasks_ s' = [2].
Proof.
  split; [split; [lia | vm_compute; reflexivity] |].
  refine (raster_transition_topology "program" "" _ _ SNone SNone None None fresh _ _ _ _).
  - cbn; lia.
  - vm_compute; reflexivity.
  - repeat constructor.
  - intros i c Hi Ho Hs. destruct i as [|[|[|i]]]; cbn in Hi, Ho, Hs; try discriminate; try lia.
    injection Hi as <-. vm_compute. discriminate.
Defined.

Create HintDb throws.

Section ThrowsOnly.
Variable msg : string.

Lemma throws_only_ret {A} (a : A) : throws_only msg (ret a).
Proof. intros s e s'. discriminate. Qed.
Lemma throws_only_fault {A} : throws_only msg (@fault A).
Proof. intros s e s'. discriminate. Qed.
Lemma throws_only_throw {A} : throws_only msg (@throw A msg).
Proof. intros s e s' [= <- _]. reflexivity. Qed.
Lemma throws_only_gets {A} (f : RasterOnlyTaskflow -> A) : throws_only msg (gets f).
Proof. intros s e s'. discriminate. Qed.
Lemma throws_only_modify f : throws_only msg (modify f).
Proof. intros s e s'. discriminate. Qed.
Lemma throws_only_of_option {A} (o : option A) : throws_only msg (of_option o).
Proof. destruct o; [apply throws_only_ret | apply throws_only_fault]. Qed.
Lemma throws_only_bind {A B} (m : M A) (k : A -> M B) :
  throws_only msg m -> (forall a, throws_only msg (k a)) -> throws_only msg (bind m k).
Proof.
  intros Hm Hk s e s'. unfold bind.
  destruct (m s) as [a s1|e1 s1|] eqn:E.
  - apply Hk.
  - intros [= -> ->]. exact (Hm s e s' E).
  - discriminate.
Qed.

End ThrowsOnly.

Lemma throws_only_of_lookup l : throws_only msg_out_of_range (of_lookup l).
Proof.
  destruct l; [apply throws_only_ret | apply throws_only_throw | apply throws_only_fault].
Qed.

#[local] Hint Resolve throws_only_ret throws_only_fault throws_only_throw throws_only_gets
  throws_only_modify throws_only_of_option throws_only_of_lookup : throws.

Ltac throws_tac :=
  repeat first
  [ apply throws_only_bind; [|intros ?; cbv beta]
  | match goal with
    | |- throws_only _ (match ?x with _ => _ end) => destruct x
    | |- throws_only _ (if ?b then _ else _) => destruct b
    end
  | solve [eauto with throws] ].

(** The only exception of the loop bodies is the [std::out_of_range] of
    [CompositeInstruction::at]. *)
Lemma raster_step_throws_only input done_cb error_cb idx :
  throws_only msg_out_of_range (raster_step input done_cb error_cb idx).
Proof.
  unfold raster_step, raster_start_instruction, composed_of, push_raster, set_taskflow,
    set_raster_tasks. throws_tac.
Qed.

Lemma transition_step_throws_only input done_cb error_cb r i j :
  throws_only msg_out_of_range (transition_step input done_cb error_cb r i j).
Proof.
  unfold transition_step, composed_of, raster_task_at, succeed, push_transition, set_taskflow,
    set_transition_tasks. throws_tac.
Qed.
#[local] Hint Resolve raster_step_throws_only transition_step_throws_only : throws.

Lemma raster_loop_throws_only input done_cb error_cb fuel : forall idx,
  throws_only msg_out_of_range (raster_loop input done_cb error_cb fuel idx).
Proof. induction fuel; intros idx; cbn [raster_loop]; throws_tac. Qed.

Lemma transition_loop_throws_only input done_cb error_cb r fuel : forall i j,
  throws_only msg_out_of_range (transition_loop input done_cb error_cb r fuel i j).
Proof. induction fuel; intros i j; cbn [transition_loop]; throws_tac. Qed.
#[local] Hint Resolve raster_loop_throws_only transition_loop_throws_only : throws.

Lemma clear_throws_only msg : throws_only msg clear.
Proof. unfold clear, emit, set_taskflow, set_raster_tasks. throws_tac. Qed.
#[local] Hint Resolve clear_throws_only : throws.

Lemma forallb_false_Exists {A} (f : A -> bool) (l : list A) :
  forallb f l = false <-> Exists (fun x => f x = false) l.
Proof.
  induction l as [|x l IH]; cbn.
  - split; [discriminate | intros H; inversion H].
  - rewrite andb_false_iff, IH. split.
    + intros [H|H]; [left | right]; exact H.
    + intros H; inversion H; subst; auto.
Qed.

(** C4: for a process input whose [getInstruction()] is [ins], a
    malformed one (no tesseract, an instruction that is not a composite, no
    start instruction in the composite nor in the input, or a child segment
    that is not a composite) fails [checkProcessInput], which logs one of
    its four errors and returns false; [generateTaskflow] then logs
    "Invalid Process Input" and throws it, before clearing or composing
    anything: the taskflow, raster and transition tasks are those it
    started with. For a well-formed one the check returns true without
    logging, and [generateTaskflow] never throws "Invalid Process Input":
    its only possible exception is the [std::out_of_range] of
    [CompositeInstruction::at] while building the tasks. *)
Theorem malformed_input_rejected (input : ProcessInput) (ins : Instruction)
    (done_cb error_cb : option nat) :
  getInstruction input = Found ins ->
  let malformed :=
    tesseract input = false
    \/ isCompositeInstruction ins = false
    \/ (hasStartInstruction ins = false /\ start_is_null input = true)
    \/ Exists (fun c => isCompositeInstruction c = false) (composite_children ins) in
  let check_errors :=
    [EvLogError "ProcessInput tesseract is a nullptr";
     EvLogError "ProcessInput Invalid: input.instructions should be a composite";
     EvLogError "ProcessInput Invalid: input.instructions should have a start instruction";
     EvLogError "ProcessInput Invalid: Both rasters and transitions should be a composite"] in
  (malformed -> forall s, exists e,
     In e check_errors
     /\ checkProcessInput input s =
          ROk false (mkROT (name_ s) (taskflow_ s) (raster_tasks_ s) (transition_tasks_ s)
                       (log_ s ++ [e]))
     /\ generateTaskflow input done_cb error_cb s =
          RThrow "Invalid Process Input"
            (mkROT (name_ s) (taskflow_ s) (raster_tasks_ s) (transition_tasks_ s)
               (log_ s ++ [e; EvLogError "Invalid Process Input"])))
  /\ (~ malformed -> forall s,
      checkProcessInput input s = ROk true s
      /\ forall msg s', generateTaskflow input done_cb error_cb s = RThrow msg s' ->
           msg = msg_out_of_range).
Proof.
  intros Hi. cbv zeta. rewrite <- forallb_false_Exists. split.
  - intros Hm [nm tf rt tt lg].
    unfold generateTaskflow, checkProcessInput. rewrite Hi.
    cbv beta iota delta [bind emit modify ret of_lookup throw];
      cbn [name_ taskflow_ raster_tasks_ transition_tasks_ log_].
    destruct (tesseract input), (isCompositeInstruction ins), (hasStartInstruction ins),
      (start_is_null input), (forallb isCompositeInstruction (composite_children ins));
      cbn [negb andb];
      first [ exfalso; intuition discriminate
            | eexists; split; cycle 1;
              [ split; [reflexivity | cbn; rewrite <- app_assoc; reflexivity]
              | cbn; tauto ] ].
  - intros Hm s.
    assert (Hc : checkProcessInput input s = ROk true s).
    { unfold checkProcessInput. rewrite Hi. cbv beta iota delta [bind emit modify ret of_lookup].
      destruct (tesseract input), (isCompositeInstruction ins), (hasStartInstruction ins),
        (start_is_null input), (forallb isCompositeInstruction (composite_children ins));
        cbn [negb andb]; first [reflexivity | exfalso; apply Hm; intuition reflexivity]. }
    split; [exact Hc|]. intros msg s' Hg.
    unfold generateTaskflow in Hg. rewrite (bind_ok _ _ _ _ _ Hc) in Hg. cbn [negb] in Hg.
    revert Hg. apply (fun H : throws_only msg_out_of_range _ => H s msg s'). throws_tac.
Qed.

Lemma malformed_input_rejected_witness :
  getInstruction (mkInput false (instruction rtr) [] SNone SNone) = Found (instruction rtr)
  /\ checkProcessInput (mkInput false (instruction rtr) [] SNone SNone) fresh
     = ROk false (mkROT "RasterOnlyTaskflow" empty_taskflow [] []
                   [EvLogError "ProcessInput tesseract is a nullptr"])
  /\ generateTaskflow (mkInput false (instruction rtr) [] SNone SNone) None None fresh
     = RThrow "Invalid Process Input"
         (mkROT "RasterOnlyTaskflow" empty_taskflow [] []
            [EvLogError "ProcessInput tesseract is a nullptr"; EvLogError "Invalid Process Input"]).
Proof.
  destruct (proj1 (malformed_input_rejected (mkInput false (instruction rtr) [] SNone SNone)
                      (instruction rtr) None None eq_refl) (or_introl eq_refl) fresh)
    as [e [He [Hc Hg]]].
  assert (Hd : e = EvLogError "ProcessInput tesseract is a nullptr").
  { vm_compute in Hc. congruence. }
  subst e. split; [reflexivity | split; [exact Hc | exact Hg]].
Defined.

End RasterOnlyProofs.

(** * Properties of DefaultTrajoptProblemGenerator *)

Module TrajoptProofs.
Import TrajoptGenerator TrajoptSamples.

Section Grows.
Variables (prof : PlanProfile) (pi : PlanInstruction) (seed_composite : list Instruction)
  (shift : nat).

Let tagged (l : list Applied) :=
  Forall (fun a => ap_profile a = prof /\ ap_instruction a = pi) l.

Lemma linear_intermediate_grows poses ps : forall acc acc',
  linear_intermediate prof pi seed_composite shift poses ps acc = GOk acc' ->
  exists l, applied acc' = applied acc ++ l /\ tagged l.
Proof.
  induction ps as [|p ps IH]; intros acc acc' H; cbn in H.
  - injection H as <-. exists []. rewrite app_nil_r. split; [reflexivity | constructor].
  - destruct (nth_error poses p) as [pose|]; cbn in H; [|discriminate].
    destruct (seed_at seed_composite (p - shift)) as [si| |]; cbn in H; try discriminate.
    destruct (seed_position si) as [pos| |]; cbn in H; try discriminate.
    apply IH in H as [l [Hl Ht]]. cbn in Hl.
    exists (mkApplied prof (TPose pose) pi (index acc) :: l). split.
    + rewrite Hl, <- app_assoc. reflexivity.
    + constructor; [split; reflexivity | exact Ht].
Qed.

Lemma linear_points_grows prev cur cnt final acc acc' :
  linear_points prof pi seed_composite shift prev cur cnt final acc = GOk acc' ->
  exists l, applied acc' = applied acc ++ l /\ tagged l.
Proof.
  unfold linear_points. intros H.
  destruct (length (interpolate prev cur cnt) =? 0); [discriminate|].
  destruct (linear_intermediate prof pi seed_composite shift _ _ acc) as [acc1| |] eqn:E;
    cbn in H; try discriminate.
  apply linear_intermediate_grows in E as [l [Hl Ht]].
  destruct (seed_back seed_composite) as [sb| |]; cbn in H; try discriminate.
  destruct (seed_position sb) as [pos| |]; cbn in H; try discriminate.
  injection H as <-. cbn.
  exists (l ++ [mkApplied prof final pi (index acc1)]). split.
  - rewrite Hl, <- app_assoc. reflexivity.
  - apply Forall_app. split; [exact Ht | repeat constructor].
Qed.

Lemma freespace_seeds_applied fuel : forall s acc acc',
  freespace_seeds seed_composite fuel s acc = GOk acc' -> applied acc' = applied acc.
Proof.
  induction fuel as [|fuel IH]; intros s acc acc' H; cbn in H.
  - injection H as <-. reflexivity.
  - destruct (_ <? _)%Z; [|injection H as <-; reflexivity].
    destruct (seed_at seed_composite s) as [si| |]; cbn in H; try discriminate.
    destruct (seed_position si) as [pos| |]; cbn in H; try discriminate.
    apply IH in H. exact H.
Qed.

Lemma freespace_points_grows final acc acc' :
  freespace_points prof pi seed_composite shift final acc = GOk acc' ->
  exists l, applied acc' = applied acc ++ l /\ tagged l.
Proof.
  unfold freespace_points. intros H.
  destruct (freespace_seeds _ _ _ acc) as [acc1| |] eqn:E; cbn in H; try discriminate.
  apply freespace_seeds_applied in E.
  destruct (seed_back seed_composite) as [sb| |]; cbn in H; try discriminate.
  destruct (seed_position sb) as [pos| |]; cbn in H; try discriminate.
  injection H as <-. cbn.
  exists [mkApplied prof final pi (index acc1)]. split.
  - rewrite E. reflexivity.
  - repeat constructor.
Qed.

End Grows.

(** Peel the binds of a successful generator computation. *)
Ltac peel H :=
  repeat match type of H with
  | gbind ?m _ = GOk _ =>
      let E := fresh "E" in destruct m as [?| |] eqn:E; cbn [gbind] in H; [|discriminate|discriminate]
  end.

(** The body of [plan_step] after the first-instruction part only appends
    entries applying [cur_plan_profile] to the plan instruction. *)
Ltac body_grows p Eb :=
  destruct (isLinear p), (isFreespace p), (plan_waypoint p);
  cbn [gbind] in Eb; try discriminate; peel Eb;
  first
  [ apply linear_points_grows in Eb; exact Eb
  | injection Eb as <-;
    match goal with Hf : freespace_points _ _ _ _ _ _ = GOk _ |- _ =>
      apply freespace_points_grows in Hf; exact Hf end ].

Lemma plan_step_grows kin pp seed i p acc acc' :
  plan_step kin pp seed i p acc = GOk acc' ->
  exists l, applied acc' = applied acc ++ l
    /\ Forall (fun a => ap_profile a = plan_profile_of pp (plan_profile p) /\ ap_instruction a = p) l
    /\ (found_plan_instruction acc = false ->
        exists t rest, l = mkApplied (plan_profile_of pp (plan_profile p)) t p (index acc) :: rest
          /\ waypoint_target (start_waypoint acc) = Some t)
    /\ found_plan_instruction acc' = true.
Proof.
  unfold plan_step. intros H.
  destruct (nth_error seed i) as [seed_i|]; cbn [gbind] in H; [|discriminate].
  destruct seed_i as [| | | |d pr st sc]; cbn [gbind] in H; try discriminate.
  set (prof := plan_profile_of pp (plan_profile p)) in *.
  destruct (found_plan_instruction acc) eqn:Ef.
  - cbn [gbind] in H.
    match type of H with gbind ?body _ = GOk _ => destruct body as [acc1| |] eqn:Eb end;
      cbn [gbind] in H; try discriminate.
    injection H as <-.
    assert (Hb : exists l, applied acc1 = applied acc ++ l
                   /\ Forall (fun a => ap_profile a = prof /\ ap_instruction a = p) l)
      by body_grows p Eb.
    destruct Hb as [l [Hl Ht]]. exists l. cbn. rewrite Hl. repeat split; auto; discriminate.
  - cbn [gbind] in H.
    destruct (seed_at sc 0) as [s0| |]; cbn [gbind] in H; try discriminate.
    destruct (seed_position s0) as [pos| |]; cbn [gbind] in H; try discriminate.
    destruct (waypoint_target (start_waypoint acc)) as [t|] eqn:Et; cbn [gbind start_waypoint push_seed] in H |- *;
      rewrite ?Et in H; cbn [gbind] in H; [|discriminate].
    match type of H with gbind ?body _ = GOk _ => destruct body as [acc1| |] eqn:Eb end;
      cbn [gbind] in H; try discriminate.
    injection H as <-.
    assert (Hb : exists l, applied acc1 =
                   applied (incr_index (apply_profile prof t p (push_seed pos acc))) ++ l
                   /\ Forall (fun a => ap_profile a = prof /\ ap_instruction a = p) l)
      by body_grows p Eb.
    destruct Hb as [l [Hl Ht]].
    exists (mkApplied prof t p (index acc) :: l). cbn in Hl |- *. rewrite Hl, <- app_assoc.
    repeat split.
    + constructor; [split; reflexivity | exact Ht].
    + intros _. exists t, l. split; reflexivity.
Qed.

Lemma plan_loop_grows kin pp seed l : forall i acc acc',
  plan_loop kin pp seed i l acc = GOk acc' ->
  exists ext, applied acc' = applied acc ++ ext
    /\ Forall (fun a => ap_profile a = plan_profile_of pp (plan_profile (ap_instruction a))) ext
    /\ (found_plan_instruction acc = false -> ext = [] \/
        exists a rest, ext = a :: rest /\ ap_index a = index acc
          /\ waypoint_target (start_waypoint acc) = Some (ap_target a)).
Proof.
  induction l as [|ins l IH]; intros i acc acc' H.
  - cbn in H. injection H as <-. exists []. rewrite app_nil_r. auto.
  - destruct ins as [| p | | |]; cbn [plan_loop] in H;
      try (apply IH in H; exact H).
    destruct (plan_step kin pp seed i p acc) as [acc1| |] eqn:Es; cbn [gbind] in H; try discriminate.
    apply plan_step_grows in Es as [l1 [Hl1 [Ht1 [Hf1 Hfound]]]].
    apply IH in H as [l2 [Hl2 [Ht2 _]]].
    exists (l1 ++ l2). split; [|split].
    + rewrite Hl2, Hl1, app_assoc. reflexivity.
    + apply Forall_app. split; [|exact Ht2].
      eapply Forall_impl; [exact Ht1|]. intros a [-> ->]. reflexivity.
    + intros Hf. right. destruct (Hf1 Hf) as [t [rest [-> Ht]]].
      eexists _, _. split; [reflexivity|]. split; [reflexivity | exact Ht].
Qed.


Lemma no_composite l : Forall (fun i => isCompositeInstruction i = false) l ->
  existsb isCompositeInstruction l = false.
Proof. induction 1 as [|x l Hx _ IH]; cbn; [reflexivity | rewrite Hx, IH; reflexivity]. Qed.

Lemma plan_loop_skip kin pp seed pre : forall i rest acc,
  Forall (fun ins => isPlanInstruction ins = false) pre ->
  plan_loop kin pp seed i (pre ++ rest) acc = plan_loop kin pp seed (i + length pre) rest acc.
Proof.
  induction pre as [|ins pre IH]; intros i rest acc Hp; cbn [app length].
  - rewrite Nat.add_0_r. reflexivity.
  - inversion Hp as [|? ? Hi Hpre]; subst.
    destruct ins; cbn in Hi; try discriminate; cbn [plan_loop];
      rewrite IH by exact Hpre; f_equal; lia.
Qed.

(** What a successful generation is made of. *)
Lemma generator_ok request pp cp prob :
  DefaultTrajoptProblemGenerator request pp cp = GOk prob ->
  exists k acc,
    kin_map (req_tesseract request) !! req_manipulator request = Some k
    /\ plan_loop k pp (req_seed request) 0 (instr_children request)
         (mkAcc 0 false (start_waypoint_of (environment (req_tesseract request)) k request) [] [] [])
       = GOk acc
    /\ prob_applied prob = applied acc
    /\ prob_composite_profile prob = composite_profile_of cp (instr_profile request).
Proof.
  unfold DefaultTrajoptProblemGenerator, getTipLinkName. intros H.
  destruct (kin_map (req_tesseract request) !! req_manipulator request) as [k|] eqn:Ek;
    cbn [gbind] in H; [|discriminate].
  destruct (existsb isCompositeInstruction (instr_children request)); [discriminate|].
  destruct (plan_loop k pp _ 0 _ _) as [acc| |] eqn:El; cbn [gbind] in H; try discriminate.
  destruct (_ <? _)%Z; [discriminate|].
  injection H as <-. exists k, acc. auto.
Qed.

(** C9: when the manipulator has no kinematics object in [kin_map], the
    generator dereferences the null pointer ([pci->kin->getTipLinkName()],
    line 48) before the null check of line 50, so the dedicated error
    branch that throws "manipulator_ does not exist in kin_map_" is never
    reached: the outcome is undefined behaviour. *)
Theorem missing_kin_dereferenced (request : PlannerRequest)
    (plan_profiles : gmap string PlanProfile) (composite_profiles : gmap string CompositeProfile) :
  kin_map (req_tesseract request) !! req_manipulator request = None ->
  DefaultTrajoptProblemGenerator request plan_profiles composite_profiles = GFault.
Proof.
  intros H. unfold DefaultTrajoptProblemGenerator, getTipLinkName. rewrite H. reflexivity.
Qed.

Lemma missing_kin_dereferenced_witness :
  kin_map (req_tesseract req_no_kin) !! req_manipulator req_no_kin = None /\
  DefaultTrajoptProblemGenerator req_no_kin ∅ ∅ = GFault.
Proof.
  assert (H : kin_map (req_tesseract req_no_kin) !! req_manipulator req_no_kin = None)
    by reflexivity.
  split; [exact H | exact (missing_kin_dereferenced req_no_kin ∅ ∅ H)].
Defined.

(** C5: an empty profile name is looked up under the key "DEFAULT" (any
    other name under itself), and a key absent from the profile map gives
    a freshly built default profile, for plan profiles and for the
    composite profile alike; a successful generation uses exactly these
    lookups: the composite profile of the instructions composite, and for
    every applied cost or constraint the profile looked up for its own
    plan instruction. *)
Theorem profile_lookup_defaults :
  profile_key "" = "DEFAULT"
  /\ (forall name, name <> "" -> profile_key name = name)
  /\ (forall (pp : gmap string PlanProfile) name,
        pp !! profile_key name = None -> plan_profile_of pp name = DefaultPlanProfile)
  /\ (forall (pp : gmap string PlanProfile) name p,
        pp !! profile_key name = Some p -> plan_profile_of pp name = p)
  /\ (forall (cp : gmap string CompositeProfile) name,
        cp !! profile_key name = None -> composite_profile_of cp name = DefaultCompositeProfile)
  /\ (forall (cp : gmap string CompositeProfile) name c,
        cp !! profile_key name = Some c -> composite_profile_of cp name = c)
  /\ (forall request pp cp prob,
        DefaultTrajoptProblemGenerator request pp cp = GOk prob ->
        prob_composite_profile prob = composite_profile_of cp (instr_profile request)
        /\ Forall (fun a => ap_profile a = plan_profile_of pp (plan_profile (ap_instruction a)))
             (prob_applied prob)).
Proof.
  split; [reflexivity|]. split.
  { intros name Hn. unfold profile_key. destruct (String.eqb_spec name ""); congruence. }
  split; [intros pp name H; unfold plan_profile_of; rewrite H; reflexivity|].
  split; [intros pp name p H; unfold plan_profile_of; rewrite H; reflexivity|].
  split; [intros cp name H; unfold composite_profile_of; rewrite H; reflexivity|].
  split; [intros cp name c H; unfold composite_profile_of; rewrite H; reflexivity|].
  intros request pp cp prob H.
  apply generator_ok in H as [k [acc [_ [Hl [Ha Hc]]]]].
  split; [exact Hc|].
  apply plan_loop_grows in Hl as [ext [He [Ht _]]].
  rewrite Ha, He. exact Ht.
Qed.

(** C10: with kinematics [k] for the manipulator, a request without a
    start waypoint gets the joint waypoint of the environment's current
    values of [k]'s joint names, a waypoint of a known type, so the start
    never fails as unknown; a start waypoint that is present is used
    unchanged. In a successful generation the first applied entry is the
    start, at index 0, with the target of that waypoint. *)
Theorem start_waypoint_substituted (request : PlannerRequest)
    (pp : gmap string PlanProfile) (cp : gmap string CompositeProfile) (k : Kin) :
  kin_map (req_tesseract request) !! req_manipulator request = Some k ->
  let env := environment (req_tesseract request) in
  (hasStartWaypoint request = false ->
     start_waypoint_of env k request =
       JointWaypoint (map (env_joint_value env) (kin_joint_names k)) (kin_joint_names k)
     /\ waypoint_target (start_waypoint_of env k request) =
       Some (TJoint (map (env_joint_value env) (kin_joint_names k)) (kin_joint_names k)))
  /\ (hasStartWaypoint request = true -> start_waypoint_of env k request = getStartWaypoint request)
  /\ (forall prob a rest,
        DefaultTrajoptProblemGenerator request pp cp = GOk prob ->
        prob_applied prob = a :: rest ->
        ap_index a = 0%Z /\ waypoint_target (start_waypoint_of env k request) = Some (ap_target a)).
Proof.
  intros Hk env. split; [|split].
  - intros H. unfold start_waypoint_of. rewrite H. split; reflexivity.
  - intros H. unfold start_waypoint_of. rewrite H. reflexivity.
  - intros prob a rest H Ha.
    apply generator_ok in H as [k' [acc [Hk' [Hl [Hap _]]]]].
    rewrite Hk in Hk'. injection Hk' as <-.
    apply plan_loop_grows in Hl as [ext [He [_ Hf]]].
    rewrite Hap, He in Ha. cbn in Ha. subst ext.
    destruct (Hf eq_refl) as [Hnil | [a' [rest' [Heq [Hi Ht]]]]]; [discriminate|].
    injection Heq as <- <-. split; [exact Hi | exact Ht].
Qed.

Lemma start_waypoint_substituted_witness :
  kin_map (req_tesseract req_no_start) !! req_manipulator req_no_start = Some kin_ok /\
  (exists prob, DefaultTrajoptProblemGenerator req_no_start ∅ ∅ = GOk prob) /\
  start_waypoint_of env0 kin_ok req_no_start = JointWaypoint [0; 0]%Z ["joint_1"; "joint_2"].
Proof.
  assert (Hk : kin_map (req_tesseract req_no_start) !! req_manipulator req_no_start = Some kin_ok)
    by reflexivity.
  split; [exact Hk|]. split; [eexists; vm_compute; reflexivity|].
  exact (proj1 (proj1 (start_waypoint_substituted req_no_start ∅ ∅ kin_ok Hk) eq_refl)).
Defined.

(** C7, counterexample: the problem generator does not turn leaf failures
    into a status; it throws them to its caller: an unknown start waypoint
    type and a failed forward kinematics solve. *)
Lemma leaf_failures_escape :
  DefaultTrajoptProblemGenerator req_state_start ∅ ∅ = GThrow msg_start_unknown
  /\ DefaultTrajoptProblemGenerator req_fk_fail ∅ ∅ = GThrow msg_fk.
Proof. split; vm_compute; reflexivity. Qed.

(** C7 (amended): [DefaultTrajoptProblemGenerator] reports these leaf
    failures by throwing [std::runtime_error] to its caller: for a request
    with kinematics [k], no child composite, whose first plan instruction
    [p] has a seed composite starting with a move instruction, a start
    waypoint that is neither Cartesian nor joint throws "uknown waypoint
    type", and otherwise a linear [p] to a joint waypoint whose forward
    kinematics fails throws "failed to solve forward kinematics". Turning
    them into a status is left to the caller. *)
Theorem leaf_failures_thrown (request : PlannerRequest) (pp : gmap string PlanProfile)
    (cp : gmap string CompositeProfile) (k : Kin) (pre post : list Instruction)
    (p : PlanInstruction) (sd spr : string) (sst : Instruction) (pos : list Z) (mdesc : string)
    (sc_rest : list Instruction) :
  kin_map (req_tesseract request) !! req_manipulator request = Some k ->
  instr_children request = pre ++ PlanInstr p :: post ->
  Forall (fun ins => isPlanInstruction ins = false /\ isCompositeInstruction ins = false) pre ->
  Forall (fun ins => isCompositeInstruction ins = false) post ->
  nth_error (req_seed request) (length pre) =
    Some (CompositeInstruction sd spr sst (MoveInstruction pos mdesc :: sc_rest)) ->
  (waypoint_target (start_waypoint_of (environment (req_tesseract request)) k request) = None ->
     DefaultTrajoptProblemGenerator request pp cp = GThrow msg_start_unknown)
  /\ (forall q n,
        waypoint_target (start_waypoint_of (environment (req_tesseract request)) k request) <> None ->
        isLinear p = true -> plan_waypoint p = JointWaypoint q n -> calcFwdKin k q = None ->
        DefaultTrajoptProblemGenerator request pp cp = GThrow msg_fk).
Proof.
  intros Hk Hc Hpre Hpost Hs.
  assert (Hnc : existsb isCompositeInstruction (instr_children request) = false).
  { rewrite Hc. apply no_composite, Forall_app. split.
    - eapply Forall_impl; [exact Hpre|]. intros x [_ H]. exact H.
    - constructor; [reflexivity | exact Hpost]. }
  assert (Hskip : forall acc,
    plan_loop k pp (req_seed request) 0 (instr_children request) acc =
    gbind (plan_step k pp (req_seed request) (length pre) p acc)
      (fun acc => plan_loop k pp (req_seed request) (S (length pre)) post acc)).
  { intros acc. rewrite Hc, plan_loop_skip.
    - reflexivity.
    - eapply Forall_impl; [exact Hpre|]. intros x [H _]. exact H. }
  unfold DefaultTrajoptProblemGenerator, getTipLinkName. rewrite Hk. cbn [gbind].
  rewrite Hnc, Hskip.
  set (sw := start_waypoint_of (environment (req_tesseract request)) k request).
  unfold plan_step. rewrite Hs. cbn [gbind found_plan_instruction seed_at nth_error seed_position].
  split.
  - intros Hw. cbn [start_waypoint push_seed]. rewrite Hw. reflexivity.
  - intros q n Hw Hlin Hwp Hfk.
    destruct (waypoint_target sw) as [t|] eqn:Et; [|congruence].
    cbn [start_waypoint push_seed]. rewrite Et. cbn [gbind].
    rewrite Hlin, Hwp. unfold fk_pose. rewrite Hfk. reflexivity.
Qed.

Lemma leaf_failures_thrown_witness :
  DefaultTrajoptProblemGenerator req_state_start ∅ ∅ = GThrow msg_start_unknown.
Proof.
  refine (proj1 (leaf_failures_thrown req_state_start ∅ ∅ kin_ok [] [] (freespace_plan "")
                   "seed" "" NullInstruction [0; 0]%Z "s0" _ _ _ _ _ _) _).
  - reflexivity.
  - reflexivity.
  - constructor.
  - constructor.
  - reflexivity.
  - reflexivity.
Defined.

End TrajoptProofs.

(** * Properties of DiscreteContactCheckTask *)

Module DiscreteContactCheckProofs.
Import DiscreteContactCheck.

(** C8: the task declares the required input ports program, environment
    and profiles, the optional input ports manipulator info and composite
    profile remapping, and no output port; [runImpl] returns the context's
    data storage unchanged, and when the three required inputs are bound it
    records the environment used and the per-segment contact results in
    its own Node Info, with success exactly when the trajectory is contact
    free. *)
Theorem contact_check_writes_only_node_info {Value ContactResultMap : Type}
    (contact_check : Value -> Value -> bool * list ContactResultMap)
    (key_of : string -> string) (data_storage : gmap string Value) :
  input_required ports = [INPUT_PROGRAM_PORT; INPUT_ENVIRONMENT_PORT; INPUT_PROFILES_PORT]
  /\ input_optional ports = [INPUT_MANIP_INFO_PORT; INPUT_COMPOSITE_PROFILE_REMAPPING_PORT]
  /\ output_required ports = [] /\ output_optional ports = []
  /\ snd (runImpl contact_check key_of data_storage) = data_storage
  /\ (forall program environment profiles,
        data_storage !! key_of INPUT_PROGRAM_PORT = Some program ->
        data_storage !! key_of INPUT_ENVIRONMENT_PORT = Some environment ->
        data_storage !! key_of INPUT_PROFILES_PORT = Some profiles ->
        env (fst (runImpl contact_check key_of data_storage)) = Some environment
        /\ contact_results (fst (runImpl contact_check key_of data_storage))
           = snd (contact_check program environment)
        /\ (status_code (fst (runImpl contact_check key_of data_storage)) = 1%Z
            <-> fst (contact_check program environment) = true)).
Proof.
  do 4 (split; [reflexivity|]). split.
  - unfold runImpl.
    destruct (data_storage !! key_of INPUT_PROGRAM_PORT),
      (data_storage !! key_of INPUT_ENVIRONMENT_PORT),
      (data_storage !! key_of INPUT_PROFILES_PORT); try reflexivity.
    destruct (contact_check _ _) as [[|] results]; reflexivity.
  - intros program environment profiles Hp He Hf. unfold runImpl. rewrite Hp, He, Hf.
    destruct (contact_check program environment) as [[|] results]; cbn;
      repeat split; try reflexivity; intros H; discriminate.
Qed.

End DiscreteContactCheckProofs.

(** * Further properties of DefaultTrajoptProblemGenerator *)

Module TrajoptStepsProofs.
Import TrajoptGenerator TrajoptSteps TrajoptSamples.

Lemma sorted_snoc (l : list Z) x :
  StronglySorted Z.lt l -> Forall (fun i => i < x)%Z l -> StronglySorted Z.lt (l ++ [x]).
Proof.
  intros Hs Hf. apply StronglySorted_app_2; [|exact Hs|repeat constructor].
  intros x1 x2 H1 H2. apply list_elem_of_singleton in H2. subst x2.
  rewrite Forall_forall in Hf. apply Hf, H1.
Qed.

Lemma Forall_lt_succ (l : list Z) (n : Z) :
  Forall (fun i => 0 <= i < n)%Z l -> Forall (fun i => 0 <= i < n + 1)%Z l.
Proof. intros H. eapply Forall_impl; [exact H|]. cbn. lia. Qed.

Lemma steps_ok_seed pos acc :
  steps_ok acc -> steps_ok (incr_index (push_seed pos acc)).
Proof.
  intros (H0 & Hn & Ha & Hai & Hf & Hfi & Hfa). unfold steps_ok. cbn.
  rewrite length_app. cbn. repeat split; auto using Forall_lt_succ; lia.
Qed.

Lemma steps_ok_apply_seed prof t pi pos acc :
  steps_ok acc -> steps_ok (incr_index (push_seed pos (apply_profile prof t pi acc))).
Proof.
  intros (H0 & Hn & Ha & Hai & Hf & Hfi & Hfa). unfold steps_ok. cbn.
  rewrite map_app, length_app. cbn. repeat split.
  - lia.
  - lia.
  - apply sorted_snoc; [exact Ha|]. eapply Forall_impl; [exact Hai|]. cbn. lia.
  - apply Forall_app. split; [apply Forall_lt_succ, Hai | repeat constructor; lia].
  - exact Hf.
  - apply Forall_lt_succ, Hfi.
  - eapply Forall_impl; [exact Hfa|]. intros x Hx. apply elem_of_app. left. exact Hx.
Qed.

Lemma steps_ok_fixed prof t pi pos acc :
  steps_ok acc ->
  steps_ok (incr_index (push_seed pos (push_fixed (apply_profile prof t pi acc)))).
Proof.
  intros (H0 & Hn & Ha & Hai & Hf & Hfi & Hfa). unfold steps_ok. cbn.
  rewrite map_app, length_app. cbn. repeat split.
  - lia.
  - lia.
  - apply sorted_snoc; [exact Ha|]. eapply Forall_impl; [exact Hai|]. cbn. lia.
  - apply Forall_app. split; [apply Forall_lt_succ, Hai | repeat constructor; lia].
  - apply sorted_snoc; [exact Hf|]. eapply Forall_impl; [exact Hfi|]. cbn. lia.
  - apply Forall_app. split; [apply Forall_lt_succ, Hfi | repeat constructor; lia].
  - apply Forall_app. split.
    + eapply Forall_impl; [exact Hfa|]. intros x Hx. apply elem_of_app. left. exact Hx.
    + constructor; [|constructor]. apply elem_of_app. right. apply list_elem_of_singleton.
      reflexivity.
Qed.

Section Helpers.
Variables (prof : PlanProfile) (pi : PlanInstruction) (seed_composite : list Instruction)
  (shift : nat).

Lemma linear_intermediate_steps_ok poses ps : forall acc acc',
  steps_ok acc ->
  linear_intermediate prof pi seed_composite shift poses ps acc = GOk acc' -> steps_ok acc'.
Proof.
  induction ps as [|p ps IH]; intros acc acc' Hok H; cbn in H.
  - injection H as <-. exact Hok.
  - destruct (nth_error poses p) as [pose|]; cbn in H; [|discriminate].
    destruct (seed_at seed_composite (p - shift)) as [si| |]; cbn in H; try discriminate.
    destruct (seed_position si) as [pos| |]; cbn in H; try discriminate.
    eapply IH; [|exact H]. apply steps_ok_apply_seed, Hok.
Qed.

Lemma linear_points_steps_ok prev cur cnt final acc acc' :
  steps_ok acc ->
  linear_points prof pi seed_composite shift prev cur cnt final acc = GOk acc' -> steps_ok acc'.
Proof.
  unfold linear_points. intros Hok H.
  destruct (length (interpolate prev cur cnt) =? 0); [discriminate|].
  destruct (linear_intermediate prof pi seed_composite shift _ _ acc) as [acc1| |] eqn:E;
    cbn in H; try discriminate.
  apply linear_intermediate_steps_ok in E; [|exact Hok].
  destruct (seed_back seed_composite) as [sb| |]; cbn in H; try discriminate.
  destruct (seed_position sb) as [pos| |]; cbn in H; try discriminate.
  injection H as <-. apply steps_ok_apply_seed, E.
Qed.

Lemma freespace_seeds_steps_ok fuel : forall s acc acc',
  steps_ok acc -> freespace_seeds seed_composite fuel s acc = GOk acc' -> steps_ok acc'.
Proof.
  induction fuel as [|fuel IH]; intros s acc acc' Hok H; cbn in H.
  - injection H as <-. exact Hok.
  - destruct (_ <? _)%Z; [|injection H as <-; exact Hok].
    destruct (seed_at seed_composite s) as [si| |]; cbn in H; try discriminate.
    destruct (seed_position si) as [pos| |]; cbn in H; try discriminate.
    eapply IH; [|exact H]. apply steps_ok_seed, Hok.
Qed.

Lemma freespace_points_steps_ok final acc acc' :
  steps_ok acc ->
  freespace_points prof pi seed_composite shift final acc = GOk acc' ->
  steps_ok (incr_index acc').
Proof.
  unfold freespace_points. intros Hok H.
  destruct (freespace_seeds _ _ _ acc) as [acc1| |] eqn:E; cbn in H; try discriminate.
  apply freespace_seeds_steps_ok in E; [|exact Hok].
  destruct (seed_back seed_composite) as [sb| |]; cbn in H; try discriminate.
  destruct (seed_position sb) as [pos| |]; cbn in H; try discriminate.
  injection H as <-. apply steps_ok_fixed, E.
Qed.

End Helpers.

Ltac peel H :=
  repeat match type of H with
  | gbind ?m _ = GOk _ =>
      let E := fresh "E" in destruct m as [?| |] eqn:E; cbn [gbind] in H; [|discriminate|discriminate]
  end.

Ltac body_steps_ok p Eb Hok :=
  destruct (isLinear p), (isFreespace p), (plan_waypoint p);
  cbn [gbind] in Eb; try discriminate; peel Eb;
  first
  [ exact (linear_points_steps_ok _ _ _ _ _ _ _ _ _ _ Hok Eb)
  | injection Eb as <-;
    match goal with Hf : freespace_points _ _ _ _ _ _ = GOk _ |- _ =>
      exact (freespace_points_steps_ok _ _ _ _ _ _ _ Hok Hf) end ].

Lemma plan_step_steps_ok kin pp seed i p acc acc' :
  steps_ok acc -> plan_step kin pp seed i p acc = GOk acc' -> steps_ok acc'.
Proof.
  unfold plan_step. intros Hok H.
  destruct (nth_error seed i) as [seed_i|]; cbn [gbind] in H; [|discriminate].
  destruct seed_i as [| | | |d pr st sc]; cbn [gbind] in H; try discriminate.
  destruct (found_plan_instruction acc) eqn:Ef.
  - cbn [gbind] in H.
    match type of H with gbind ?body _ = GOk _ => destruct body as [acc1| |] eqn:Eb end;
      cbn [gbind] in H; try discriminate.
    injection H as <-.
    assert (Hb : steps_ok acc1) by body_steps_ok p Eb Hok.
    exact Hb.
  - cbn [gbind] in H.
    destruct (seed_at sc 0) as [s0| |]; cbn [gbind] in H; try discriminate.
    destruct (seed_position s0) as [pos| |]; cbn [gbind] in H; try discriminate.
    destruct (waypoint_target (start_waypoint acc)) as [t|] eqn:Et;
      cbn [gbind start_waypoint push_seed] in H; rewrite ?Et in H; cbn [gbind] in H;
      [|discriminate].
    match type of H with gbind ?body _ = GOk _ => destruct body as [acc1| |] eqn:Eb end;
      cbn [gbind] in H; try discriminate.
    injection H as <-.
    assert (Hok1 : steps_ok (incr_index (apply_profile (plan_profile_of pp (plan_profile p)) t p
                                           (push_seed pos acc))))
      by exact (steps_ok_apply_seed _ t p pos acc Hok).
    assert (Hb : steps_ok acc1) by body_steps_ok p Eb Hok1.
    exact Hb.
Qed.

Lemma plan_loop_steps_ok kin pp seed l : forall i acc acc',
  steps_ok acc -> plan_loop kin pp seed i l acc = GOk acc' -> steps_ok acc'.
Proof.
  induction l as [|ins l IH]; intros i acc acc' Hok H.
  - cbn in H. injection H as <-. exact Hok.
  - destruct ins as [| p | | |]; cbn [plan_loop] in H; try (eapply IH; [exact Hok | exact H]).
    destruct (plan_step kin pp seed i p acc) as [acc1| |] eqn:Es; cbn [gbind] in H; try discriminate.
    eapply IH; [|exact H]. eapply plan_step_steps_ok; [exact Hok | exact Es].
Qed.

Lemma steps_ok_init sw : steps_ok (mkAcc 0 false sw [] [] []).
Proof. repeat split; cbn; try constructor; lia. Qed.


(** X2: in every problem the generator returns, the steps at which plan
    profiles were applied are strictly increasing and lie in
    [0, n_steps); so do the fixed steps, each of which is a step where a
    profile was applied; the seed has [n_steps] rows. *)
Theorem generator_step_indices request pp cp prob :
  DefaultTrajoptProblemGenerator request pp cp = GOk prob ->
  let n := prob_n_steps prob in
  Z.of_nat (length (prob_seed prob)) = n
  /\ StronglySorted Z.lt (map ap_index (prob_applied prob))
  /\ Forall (fun i => 0 <= i < n)%Z (map ap_index (prob_applied prob))
  /\ StronglySorted Z.lt (prob_fixed_steps prob)
  /\ Forall (fun i => 0 <= i < n)%Z (prob_fixed_steps prob)
  /\ Forall (fun i => i ∈ map ap_index (prob_applied prob)) (prob_fixed_steps prob).
Proof.
  unfold DefaultTrajoptProblemGenerator, getTipLinkName. intros H.
  destruct (kin_map (req_tesseract request) !! req_manipulator request) as [k|] eqn:Ek;
    cbn [gbind] in H; [|discriminate].
  destruct (existsb isCompositeInstruction (instr_children request)); [discriminate|].
  destruct (plan_loop k pp _ 0 _ _) as [acc| |] eqn:El; cbn [gbind] in H; try discriminate.
  pose proof (plan_loop_steps_ok _ _ _ _ _ _ _ (steps_ok_init _) El)
    as (H0 & Hn & Ha & Hai & Hf & Hfi & Hfa).
  destruct (_ <? _)%Z; [discriminate|].
  injection H as <-. cbn. rewrite firstn_all2 by lia. auto 7.
Qed.


Lemma generator_step_indices_witness :
  exists prob, DefaultTrajoptProblemGenerator req_mixed ∅ ∅ = GOk prob
    /\ map ap_index (prob_applied prob) = [0; 2; 3; 4; 5; 8]%Z
    /\ prob_fixed_steps prob = [2; 8]%Z
    /\ Forall (fun i => i ∈ map ap_index (prob_applied prob)) (prob_fixed_steps prob).
Proof.
  destruct (DefaultTrajoptProblemGenerator req_mixed ∅ ∅) as [prob| |] eqn:E;
    [|vm_compute in E; discriminate E|vm_compute in E; discriminate E].
  exists prob. split; [reflexivity|].
  pose proof (generator_step_indices req_mixed ∅ ∅ prob E) as (_ & _ & _ & _ & _ & Hfa).
  vm_compute in E. injection E as <-.
  split; [reflexivity|]. split; [reflexivity|]. exact Hfa.
Defined.

End TrajoptStepsProofs.

Module TrajoptCount.
Import TrajoptGenerator TrajoptSamples.

Lemma linear_intermediate_index prof pi sc shift poses ps : forall acc acc',
  linear_intermediate prof pi sc shift poses ps acc = GOk acc' ->
  index acc' = (index acc + Z.of_nat (length ps))%Z.
Proof.
  induction ps as [|p ps IH]; intros acc acc' H; cbn in H.
  - injection H as <-. cbn. lia.
  - destruct (nth_error poses p) as [pose|]; cbn in H; [|discriminate].
    destruct (seed_at sc (p - shift)) as [si| |]; cbn in H; try discriminate.
    destruct (seed_position si) as [pos| |]; cbn in H; try discriminate.
    apply IH in H. cbn in H. cbn [length]. lia.
Qed.

Lemma linear_points_index prof pi sc shift prev cur cnt final acc acc' :
  linear_points prof pi sc shift prev cur cnt final acc = GOk acc' ->
  sc <> [] /\
  index acc' = (index acc + Z.of_nat (Z.to_nat (cnt + 1) - 2) + 1)%Z.
Proof.
  unfold linear_points. intros H.
  destruct (length (interpolate prev cur cnt) =? 0); [discriminate|].
  destruct (linear_intermediate prof pi sc shift _ _ acc) as [acc1| |] eqn:E;
    cbn in H; try discriminate.
  apply linear_intermediate_index in E.
  unfold seed_back in H.
  destruct (last sc) as [sb|] eqn:El; cbn in H; [|discriminate].
  destruct (seed_position sb) as [pos| |]; cbn in H; try discriminate.
  injection H as <-. split.
  - intros ->. discriminate.
  - cbn. rewrite E, length_seq. unfold interpolate. rewrite length_map, length_seq. lia.
Qed.

Lemma freespace_seeds_index sc fuel : forall s acc acc',
  1 <= length sc -> (Z.of_nat (length sc) < 2 ^ 64)%Z -> length sc - 1 - s <= fuel ->
  freespace_seeds sc fuel s acc = GOk acc' ->
  index acc' = (index acc + Z.of_nat (length sc - 1 - s))%Z.
Proof.
  induction fuel as [|fuel IH]; intros s acc acc' H1 Hb Hf H; cbn in H.
  - injection H as <-. lia.
  - rewrite RasterOnlyProofs.size_t_sub_1 in H by lia.
    destruct (Z.of_nat s <? Z.of_nat (length sc - 1))%Z eqn:Es.
    + destruct (seed_at sc s) as [si| |]; cbn in H; try discriminate.
      destruct (seed_position si) as [pos| |]; cbn in H; try discriminate.
      apply Z.ltb_lt in Es. apply IH in H; [cbn [index incr_index push_seed] in H; lia|lia|lia|lia].
    + injection H as <-. apply Z.ltb_ge in Es. lia.
Qed.

Lemma freespace_points_index prof pi sc shift final acc acc' :
  freespace_points prof pi sc shift final acc = GOk acc' ->
  sc <> [] /\ ((Z.of_nat (length sc) < 2 ^ 64)%Z ->
               index acc' = (index acc + Z.of_nat (length sc - 1 - shift))%Z).
Proof.
  unfold freespace_points. intros H.
  destruct (freespace_seeds _ _ _ acc) as [acc1| |] eqn:E; cbn in H; try discriminate.
  unfold seed_back in H.
  destruct (last sc) as [sb|] eqn:El; cbn in H; [|discriminate].
  destruct (seed_position sb) as [pos| |]; cbn in H; try discriminate.
  injection H as <-.
  assert (Hne : sc <> []) by (intros ->; discriminate).
  assert (H1 : 1 <= length sc) by (destruct sc; [congruence | cbn; lia]).
  split; [exact Hne|]. intros Hb.
  apply freespace_seeds_index in E; [|lia|lia|lia]. cbn. exact E.
Qed.


Ltac peel H :=
  repeat match type of H with
  | gbind ?m _ = GOk _ =>
      let E := fresh "E" in destruct m as [?| |] eqn:E; cbn [gbind] in H; [|discriminate|discriminate]
  end.

(** X3: a plan instruction at position [i] that is processed without error
    reads a non-empty seed composite [seed[i]] and (while the composite's
    size fits a [std::size_t]) advances [index] by that composite's size;
    the first plan instruction advances it by at least 2, the start step
    and the instruction's own last step. *)
Theorem plan_step_index kin pp seed i p acc acc' :
  plan_step kin pp seed i p acc = GOk acc' ->
  exists d pr st sc,
    nth_error seed i = Some (CompositeInstruction d pr st sc)
    /\ sc <> []
    /\ ((Z.of_nat (length sc) < 2 ^ 64)%Z ->
        index acc' = (index acc + if found_plan_instruction acc then Z.of_nat (length sc)
                                  else Z.max (Z.of_nat (length sc)) 2)%Z).
Proof.
  unfold plan_step. intros H.
  destruct (nth_error seed i) as [seed_i|]; cbn [gbind] in H; [|discriminate].
  destruct seed_i as [| | | |d pr st sc]; cbn [gbind] in H; try discriminate.
  exists d, pr, st, sc. split; [reflexivity|].
  destruct (found_plan_instruction acc) eqn:Ef.
  - cbn [gbind] in H.
    match type of H with gbind ?body _ = GOk _ => destruct body as [acc1| |] eqn:Eb end;
      cbn [gbind] in H; try discriminate.
    injection H as <-. cbn [index finish_plan].
    destruct (isLinear p), (isFreespace p), (plan_waypoint p);
      cbn [gbind] in Eb; try discriminate; peel Eb;
    first
    [ apply linear_points_index in Eb as [Hne Hi];
      split; [exact Hne|]; intros _; rewrite Hi;
      destruct sc; [congruence|]; cbn [length]; lia
    | injection Eb as <-;
      match goal with Hf : freespace_points _ _ _ _ _ _ = GOk _ |- _ =>
        apply freespace_points_index in Hf as [Hne Hi] end;
      split; [exact Hne|]; intros Hb; cbn [index incr_index]; rewrite (Hi Hb);
      destruct sc; [congruence|]; cbn [length]; lia ].
  - cbn [gbind] in H.
    destruct (seed_at sc 0) as [s0| |] eqn:E0; cbn [gbind] in H; try discriminate.
    assert (Hne : sc <> []) by (intros ->; discriminate).
    split; [exact Hne|]. intros Hb.
    destruct (seed_position s0) as [pos| |]; cbn [gbind] in H; try discriminate.
    destruct (waypoint_target (start_waypoint acc)) as [t|] eqn:Et;
      cbn [gbind start_waypoint push_seed] in H; rewrite ?Et in H; cbn [gbind] in H;
      [|discriminate].
    match type of H with gbind ?body _ = GOk _ => destruct body as [acc1| |] eqn:Eb end;
      cbn [gbind] in H; try discriminate.
    injection H as <-. cbn [index finish_plan].
    destruct (isLinear p), (isFreespace p), (plan_waypoint p);
      cbn [gbind] in Eb; try discriminate; peel Eb;
    first
    [ apply linear_points_index in Eb as [_ Hi]; rewrite Hi;
      cbn [index incr_index apply_profile push_seed];
      destruct sc as [|x [|y sc]]; [congruence| |]; cbn [length]; lia
    | injection Eb as <-;
      match goal with Hf : freespace_points _ _ _ _ _ _ = GOk _ |- _ =>
        apply freespace_points_index in Hf as [_ Hi] end;
      cbn [index incr_index apply_profile push_seed] in *; rewrite (Hi Hb);
      destruct sc as [|x [|y sc]]; [congruence| |]; cbn [length]; lia ].
Qed.

Lemma plan_step_index_witness :
  exists acc',
    plan_step kin_ok ∅ [CompositeInstruction "seed" "" NullInstruction [MoveInstruction [0; 0]%Z "s0"]]
      0 (freespace_plan "") (mkAcc 0 false (JointWaypoint [0; 0]%Z ["joint_1"; "joint_2"]) [] [] [])
    = GOk acc' /\ index acc' = 2%Z.
Proof.
  destruct (plan_step kin_ok ∅ [CompositeInstruction "seed" "" NullInstruction [MoveInstruction [0; 0]%Z "s0"]]
      0 (freespace_plan "") (mkAcc 0 false (JointWaypoint [0; 0]%Z ["joint_1"; "joint_2"]) [] [] []))
    as [acc'| |] eqn:E; [|vm_compute in E; discriminate E|vm_compute in E; discriminate E].
  exists acc'. split; [reflexivity|].
  destruct (plan_step_index _ _ _ _ _ _ _ E) as (d & pr & st & sc & Hs & _ & Hi).
  injection Hs as <- <- <- <-. rewrite Hi by (cbn; lia). reflexivity.
Defined.

End TrajoptCount.

Module TrajoptFinalPoint.
Import TrajoptGenerator TrajoptSamples.

Lemma linear_intermediate_frame prof pi sc shift poses ps : forall acc acc',
  linear_intermediate prof pi sc shift poses ps acc = GOk acc' ->
  fixed_steps acc' = fixed_steps acc /\ start_waypoint acc' = start_waypoint acc
  /\ found_plan_instruction acc' = found_plan_instruction acc.
Proof.
  induction ps as [|p ps IH]; intros acc acc' H; cbn in H.
  - injection H as <-. auto.
  - destruct (nth_error poses p) as [pose|]; cbn in H; [|discriminate].
    destruct (seed_at sc (p - shift)) as [si| |]; cbn in H; try discriminate.
    destruct (seed_position si) as [pos| |]; cbn in H; try discriminate.
    apply IH in H. exact H.
Qed.

Lemma linear_points_final prof pi sc shift prev cur cnt final acc acc' :
  linear_points prof pi sc shift prev cur cnt final acc = GOk acc' ->
  fixed_steps acc' = fixed_steps acc
  /\ (exists pre, applied acc' = pre ++ [mkApplied prof final pi (index acc' - 1)])
  /\ start_waypoint acc' = start_waypoint acc.
Proof.
  unfold linear_points. intros H.
  destruct (length (interpolate prev cur cnt) =? 0); [discriminate|].
  destruct (linear_intermediate prof pi sc shift _ _ acc) as [acc1| |] eqn:E;
    cbn in H; try discriminate.
  apply linear_intermediate_frame in E as (Hf & Hs & _).
  destruct (seed_back sc) as [sb| |]; cbn in H; try discriminate.
  destruct (seed_position sb) as [pos| |]; cbn in H; try discriminate.
  injection H as <-. cbn. split; [exact Hf|]. split; [|exact Hs].
  exists (applied acc1). repeat f_equal. lia.
Qed.

Lemma freespace_seeds_frame sc fuel : forall s acc acc',
  freespace_seeds sc fuel s acc = GOk acc' ->
  fixed_steps acc' = fixed_steps acc /\ applied acc' = applied acc
  /\ start_waypoint acc' = start_waypoint acc.
Proof.
  induction fuel as [|fuel IH]; intros s acc acc' H; cbn in H.
  - injection H as <-. auto.
  - destruct (_ <? _)%Z; [|injection H as <-; auto].
    destruct (seed_at sc s) as [si| |]; cbn in H; try discriminate.
    destruct (seed_position si) as [pos| |]; cbn in H; try discriminate.
    apply IH in H. exact H.
Qed.

Lemma freespace_points_final prof pi sc shift final acc acc' :
  freespace_points prof pi sc shift final acc = GOk acc' ->
  fixed_steps acc' = fixed_steps acc ++ [index acc']
  /\ (exists pre, applied acc' = pre ++ [mkApplied prof final pi (index acc')])
  /\ start_waypoint acc' = start_waypoint acc.
Proof.
  unfold freespace_points. intros H.
  destruct (freespace_seeds _ _ _ acc) as [acc1| |] eqn:E; cbn in H; try discriminate.
  apply freespace_seeds_frame in E as (Hf & Ha & Hs).
  destruct (seed_back sc) as [sb| |]; cbn in H; try discriminate.
  destruct (seed_position sb) as [pos| |]; cbn in H; try discriminate.
  injection H as <-. cbn. rewrite Hf. split; [reflexivity|]. split; [|exact Hs].
  exists (applied acc1). reflexivity.
Qed.

Ltac peel H :=
  repeat match type of H with
  | gbind ?m _ = GOk _ =>
      let E := fresh "E" in destruct m as [?| |] eqn:E; cbn [gbind] in H; [|discriminate|discriminate]
  end.

(** X4: after a plan instruction is processed, the last applied profile is
    the instruction's own plan profile, at the last step [index - 1], with
    the target of the instruction's waypoint; a freespace instruction adds
    that step to the fixed steps and a linear one adds no fixed step; the
    instruction's waypoint becomes the start waypoint of the next one. *)
Theorem plan_step_final_point kin pp seed i p acc acc' :
  plan_step kin pp seed i p acc = GOk acc' ->
  found_plan_instruction acc' = true
  /\ start_waypoint acc' = plan_waypoint p
  /\ (exists pre t,
        applied acc' = pre ++ [mkApplied (plan_profile_of pp (plan_profile p)) t p (index acc' - 1)]
        /\ waypoint_target (plan_waypoint p) = Some t)
  /\ fixed_steps acc' = fixed_steps acc ++ (if isLinear p then [] else [(index acc' - 1)%Z]).
Proof.
  unfold plan_step. intros H.
  destruct (nth_error seed i) as [seed_i|]; cbn [gbind] in H; [|discriminate].
  destruct seed_i as [| | | |d pr st sc]; cbn [gbind] in H; try discriminate.
  match type of H with gbind ?first _ = GOk _ =>
    destruct first as [[[[acc1 cnt] cs] fs]| |] eqn:Ef end; cbn [gbind] in H; try discriminate.
  assert (Hfx : fixed_steps acc1 = fixed_steps acc).
  { destruct (found_plan_instruction acc); cbn [gbind] in Ef.
    - injection Ef as <- _ _ _. reflexivity.
    - peel Ef. destruct (waypoint_target _); cbn [gbind] in Ef; [|discriminate].
      injection Ef as <- _ _ _. reflexivity. }
  match type of H with gbind ?body _ = GOk _ => destruct body as [acc2| |] eqn:Eb end;
    cbn [gbind] in H; try discriminate.
  injection H as <-. cbn [finish_plan found_plan_instruction start_waypoint applied index fixed_steps].
  split; [reflexivity|]. split; [reflexivity|].
  destruct (isLinear p), (isFreespace p), (plan_waypoint p) as [| c | q n |]; cbn [gbind] in Eb;
    try discriminate; peel Eb.
  - apply linear_points_final in Eb as (Hf & [pre Ha] & _).
    split; [exists pre; eexists; split; [exact Ha | reflexivity]|]. rewrite Hf, Hfx, app_nil_r. reflexivity.
  - apply linear_points_final in Eb as (Hf & [pre Ha] & _).
    split; [exists pre; eexists; split; [exact Ha | reflexivity]|]. rewrite Hf, Hfx, app_nil_r. reflexivity.
  - apply linear_points_final in Eb as (Hf & [pre Ha] & _).
    split; [exists pre; eexists; split; [exact Ha | reflexivity]|]. rewrite Hf, Hfx, app_nil_r. reflexivity.
  - apply linear_points_final in Eb as (Hf & [pre Ha] & _).
    split; [exists pre; eexists; split; [exact Ha | reflexivity]|]. rewrite Hf, Hfx, app_nil_r. reflexivity.
  - injection Eb as <-. cbn [incr_index index applied fixed_steps].
    match goal with Hq : freespace_points _ _ _ _ _ _ = GOk _ |- _ =>
      apply freespace_points_final in Hq as (Hf & [pre Ha] & _) end.
    rewrite Z.add_simpl_r. split; [exists pre; eexists; split; [exact Ha | reflexivity]|].
    rewrite Hf, Hfx. reflexivity.
  - injection Eb as <-. cbn [incr_index index applied fixed_steps].
    match goal with Hq : freespace_points _ _ _ _ _ _ = GOk _ |- _ =>
      apply freespace_points_final in Hq as (Hf & [pre Ha] & _) end.
    rewrite Z.add_simpl_r. split; [exists pre; eexists; split; [exact Ha | reflexivity]|].
    rewrite Hf, Hfx. reflexivity.
Qed.

Lemma plan_step_final_point_witness :
  exists acc',
    plan_step kin_ok ∅ [seed_segment] 0 (freespace_plan "")
      (mkAcc 0 false (JointWaypoint [0; 0]%Z ["joint_1"; "joint_2"]) [] [] [])
    = GOk acc' /\ fixed_steps acc' = [2%Z]
    /\ start_waypoint acc' = JointWaypoint [1; 1]%Z ["joint_1"; "joint_2"].
Proof.
  destruct (plan_step kin_ok ∅ [seed_segment] 0 (freespace_plan "")
      (mkAcc 0 false (JointWaypoint [0; 0]%Z ["joint_1"; "joint_2"]) [] [] []))
    as [acc'| |] eqn:E; [|vm_compute in E; discriminate E|vm_compute in E; discriminate E].
  exists acc'. split; [reflexivity|].
  destruct (plan_step_final_point _ _ _ _ _ _ _ E) as (_ & Hs & _ & Hf).
  rewrite Hs, Hf. vm_compute in E. injection E as <-. split; reflexivity.
Defined.

End TrajoptFinalPoint.

(** * Further properties of RasterOnlyTaskflow *)

Module RasterOnlyHistoryProofs.
Import RasterOnly RasterOnlyHistory.


Create HintDb frame.

Lemma frame_ret {A} (a : A) : frame (ret a).
Proof. intros tt lg s. reflexivity. Qed.
Lemma frame_fault {A} : frame (@fault A).
Proof. intros tt lg s. reflexivity. Qed.
Lemma frame_of_option {A} (o : option A) : frame (of_option o).
Proof. destruct o; intros tt lg s; reflexivity. Qed.
Lemma frame_throw {A} msg : frame (@throw A msg).
Proof. intros tt lg s. reflexivity. Qed.
Lemma frame_of_lookup l : frame (of_lookup l).
Proof. destruct l; intros tt lg s; reflexivity. Qed.
Lemma frame_gets {A} (f : RasterOnlyTaskflow -> A) :
  (forall tt lg s, f (prepend tt lg s) = f s) -> frame (gets f).
Proof. intros Hf tt lg s. unfold gets. rewrite Hf. reflexivity. Qed.
Lemma frame_bind {A B} (m : M A) (k : A -> M B) :
  frame m -> (forall a, frame (k a)) -> frame (bind m k).
Proof.
  intros Hm Hk tt lg s. unfold bind. rewrite Hm.
  destruct (m s) as [a s1|e s1|]; cbn [res_map]; [apply Hk | reflexivity | reflexivity].
Qed.
Lemma frame_emit e : frame (emit e).
Proof. intros tt lg s. unfold emit, modify, prepend. cbn. rewrite <- app_assoc. reflexivity. Qed.
Lemma frame_set_taskflow tf : frame (set_taskflow tf).
Proof. intros tt lg s. reflexivity. Qed.
Lemma frame_set_raster_tasks l : frame (set_raster_tasks l).
Proof. intros tt lg s. reflexivity. Qed.
Lemma frame_push_transition id : frame (push_transition id).
Proof.
  intros tt lg s. unfold push_transition, set_transition_tasks, bind, gets, modify, prepend.
  cbn. rewrite <- app_assoc. reflexivity.
Qed.

#[local] Hint Resolve frame_ret frame_fault frame_of_option frame_throw frame_of_lookup frame_emit frame_set_taskflow
  frame_set_raster_tasks frame_push_transition : frame.

Ltac frame_tac :=
  repeat first
  [ solve [eauto with frame]
  | apply frame_bind; [|intros ?; cbv beta]
  | apply frame_gets; reflexivity
  | match goal with
    | |- frame (match ?x with _ => _ end) => destruct x
    | |- frame (if ?b then _ else _) => destruct b
    end ].

Lemma frame_raster_step input done_cb error_cb idx :
  frame (raster_step input done_cb error_cb idx).
Proof.
  unfold raster_step, raster_start_instruction, composed_of, push_raster. frame_tac.
Qed.

Lemma frame_transition_step input done_cb error_cb r i j :
  frame (transition_step input done_cb error_cb r i j).
Proof.
  unfold transition_step, composed_of, raster_task_at, succeed. frame_tac.
Qed.
#[local] Hint Resolve frame_raster_step frame_transition_step : frame.

Lemma frame_raster_loop input done_cb error_cb fuel : forall idx,
  frame (raster_loop input done_cb error_cb fuel idx).
Proof. induction fuel; intros idx; cbn [raster_loop]; frame_tac. Qed.

Lemma frame_transition_loop input done_cb error_cb r fuel : forall i j,
  frame (transition_loop input done_cb error_cb r fuel i j).
Proof. induction fuel; intros i j; cbn [transition_loop]; frame_tac. Qed.
#[local] Hint Resolve frame_raster_loop frame_transition_loop : frame.

Lemma clear_constructed s :
  clear s = res_map (prepend (transition_tasks_ s) (log_ s)) (clear (constructed (name_ s))).
Proof.
  destruct s as [nm tf rt tt lg].
  unfold clear, emit, set_taskflow, set_raster_tasks, modify, bind, prepend. cbn.
  rewrite app_nil_r, <- app_assoc. reflexivity.
Qed.

Lemma frame_bind_at {A B} (m : M A) (k : A -> M B) s s0 tt lg :
  m s = res_map (prepend tt lg) (m s0) -> (forall a, frame (k a)) ->
  bind m k s = res_map (prepend tt lg) (bind m k s0).
Proof.
  intros Hm Hk. unfold bind at 1 2. rewrite Hm.
  destruct (m s0) as [a s1|e s1|]; cbn [res_map]; [apply Hk | reflexivity | reflexivity].
Qed.

(** [checkProcessInput] only appends to the log. *)
Lemma check_extend_log input s :
  checkProcessInput input s =
  res_map (extend_log s) (checkProcessInput input (constructed (name_ s))).
Proof.
  destruct s as [nm tf rt tt lg].
  unfold checkProcessInput. cbv beta iota delta [bind emit modify ret of_lookup throw fault].
  destruct (tesseract input); cbn [negb]; [|reflexivity].
  destruct (getInstruction input) as [ii| |]; [|unfold res_map, extend_log; cbn; rewrite ?app_nil_r; reflexivity|reflexivity].
  destruct (isCompositeInstruction ii), (hasStartInstruction ii), (start_is_null input),
    (forallb isCompositeInstruction (composite_children ii));
    unfold res_map, extend_log; cbn; rewrite ?app_nil_r; reflexivity.
Qed.

Lemma check_true_state input s s' :
  checkProcessInput input s = ROk true s' -> s' = s.
Proof.
  unfold checkProcessInput. cbv beta iota delta [bind emit modify ret of_lookup throw fault].
  destruct (tesseract input); cbn [negb]; [|discriminate].
  destruct (getInstruction input) as [ii| |]; [|discriminate|discriminate].
  destruct (isCompositeInstruction ii), (hasStartInstruction ii), (start_is_null input),
    (forallb isCompositeInstruction (composite_children ii));
    cbn; congruence.
Qed.

(** X5: [generateTaskflow] behaves on any object as on a freshly
    constructed one of the same name. When the input passes the check, the
    outcome (a taskflow, or an exception raised while building the tasks)
    is the one on the fresh object, with the object's older transition
    tasks and log entries kept in front. Otherwise (the check fails, or
    throws or faults before returning) the outcome is also the fresh
    object's, and the object keeps its taskflow and task lists: only its
    log grows, by what the fresh object logs. *)
Theorem generateTaskflow_history_independent input done_cb error_cb s :
  generateTaskflow input done_cb error_cb s =
  match checkProcessInput input (constructed (name_ s)) with
  | ROk true _ =>
      res_map (prepend (transition_tasks_ s) (log_ s))
        (generateTaskflow input done_cb error_cb (constructed (name_ s)))
  | _ =>
      res_map (extend_log s) (generateTaskflow input done_cb error_cb (constructed (name_ s)))
  end.
Proof.
  pose proof (check_extend_log input s) as Hs.
  destruct (checkProcessInput input (constructed (name_ s))) as [[|] c|msg c|] eqn:Ec;
    cbn [res_map] in Hs.
  - apply check_true_state in Ec as Hc. subst c.
    assert (Hs' : checkProcessInput input s = ROk true s).
    { rewrite Hs. destruct s as [nm tf rt tt lg]. unfold extend_log. cbn.
      rewrite app_nil_r. reflexivity. }
    unfold generateTaskflow.
    rewrite (RasterOnlyProofs.bind_ok _ _ _ _ _ Hs'), (RasterOnlyProofs.bind_ok _ _ _ _ _ Ec).
    cbn [negb].
    apply (frame_bind_at _ _ s _ _ _ (clear_constructed s)). intros _. frame_tac.
  - unfold generateTaskflow.
    rewrite (RasterOnlyProofs.bind_ok _ _ _ _ _ Hs), (RasterOnlyProofs.bind_ok _ _ _ _ _ Ec).
    cbn [negb]. unfold bind, emit, modify, throw, extend_log. cbn.
    rewrite app_assoc. reflexivity.
  - unfold generateTaskflow, bind. rewrite Hs, Ec. reflexivity.
  - unfold generateTaskflow, bind. rewrite Hs, Ec. reflexivity.
Qed.

End RasterOnlyHistoryProofs.

Module TaskInputsProofs.
Import RasterOnly TaskInputs Samples.

Lemma raster_start_ok input idx s st s' :
  raster_start_instruction input idx s = ROk st s' ->
  s' = s /\ exists p, st = PlanInstr (setPlanType p START)
    /\ ((idx = 0 /\ exists ii, getInstruction input = Found ii /\ composite_start ii = PlanInstr p)
        \/ (idx <> 0 /\ exists pi, getInstruction (input_at input (idx - 1)) = Found pi
                                  /\ getLastPlanInstruction pi = Some p)).
Proof.
  unfold raster_start_instruction, bind, of_option, of_lookup, ret, throw, fault.
  destruct (getInstruction input) as [ii| |] eqn:Ei; [|discriminate|discriminate].
  destruct (idx =? 0) eqn:E0.
  - apply Nat.eqb_eq in E0. destruct (composite_start ii) eqn:Es; try discriminate.
    intros [= <- <-]. split; [reflexivity|]. eexists. split; [reflexivity|].
    left. split; [exact E0|]. exists ii. auto.
  - apply Nat.eqb_neq in E0.
    destruct (getInstruction (input_at input (idx - 1))) as [pi| |] eqn:Ep;
      [|discriminate|discriminate].
    destruct (getLastPlanInstruction pi) as [li|] eqn:El; [|discriminate].
    intros [= <- <-]. split; [reflexivity|]. eexists. split; [reflexivity|].
    right. split; [exact E0|]. exists pi. auto.
Qed.

Lemma raster_step_ok input done_cb error_cb idx s s' :
  Nat.even idx = true ->
  raster_step input done_cb error_cb idx s = ROk tt s' ->
  exists t, raster_task_of input done_cb error_cb t
    /\ tf_tasks (taskflow_ s') = tf_tasks (taskflow_ s) ++ [t]
    /\ tf_edges (taskflow_ s') = tf_edges (taskflow_ s)
    /\ raster_tasks_ s' = raster_tasks_ s ++ [length (tf_tasks (taskflow_ s))]
    /\ transition_tasks_ s' = transition_tasks_ s.
Proof.
  intros He. unfold raster_step. unfold bind at 1.
  destruct (raster_start_instruction input idx s) as [st s1| |] eqn:Est; try discriminate.
  apply raster_start_ok in Est as [-> [p [-> Hp]]].
  unfold bind, of_lookup, throw, fault, getInstruction, setStartInstruction, input_at.
  cbn [instruction instruction_indice].
  destruct (follow (instruction input) (instruction_indice input ++ [idx])) as [ri| |] eqn:Eri;
    [|discriminate|discriminate].
  unfold composed_of, push_raster, set_taskflow, set_raster_tasks, bind, gets, modify, ret.
  cbn. intros [= <-]. cbn. eexists. split; [|repeat split; reflexivity].
  exists idx, p, ri. split; [exact He|]. split; [exact Eri|]. split; [exact Hp|]. reflexivity.
Qed.


Lemma transition_step_ok input done_cb error_cb r i j s s' :
  Nat.odd i = true -> j = i / 2 ->
  transition_step input done_cb error_cb r i j s = ROk tt s' ->
  exists t r0 r1, transition_task_of input done_cb error_cb t
    /\ nth_error (raster_tasks_ s) (r + j) = Some r0
    /\ nth_error (raster_tasks_ s) (r + j + 1) = Some r1
    /\ tf_tasks (taskflow_ s') = tf_tasks (taskflow_ s) ++ [t]
    /\ tf_edges (taskflow_ s') = tf_edges (taskflow_ s)
         ++ [(r0, length (tf_tasks (taskflow_ s))); (r1, length (tf_tasks (taskflow_ s)))]
    /\ raster_tasks_ s' = raster_tasks_ s.
Proof.
  intros Ho Hj. unfold transition_step.
  unfold bind at 1, of_lookup, throw, fault, getInstruction, setEndInstruction,
    setStartInstruction, input_at.
  cbn [instruction instruction_indice].
  destruct (follow (instruction input) (instruction_indice input ++ [i])) as [ti| |] eqn:Eti;
    [|discriminate|discriminate].
  unfold composed_of, raster_task_at, succeed, push_transition, set_taskflow,
    set_transition_tasks, bind, gets, modify, ret, of_option. cbn.
  destruct (nth_error (raster_tasks_ s) (r + j)) as [r0|] eqn:E0; [|discriminate].
  cbn. destruct (nth_error (raster_tasks_ s) (r + j + 1)) as [r1|] eqn:E1; [|discriminate].
  cbn. intros [= <-]. cbn. exists (mkTask (transition_name j (getDescription ti)) TransitionGen
             (setEndInstruction (setStartInstruction (input_at input i) (SIndices [i - 1]))
                (SIndices [i + 1]))
             (getDescription ti, done_cb) (getDescription ti, error_cb)), r0, r1.
  split; [|repeat split; auto; rewrite <- app_assoc; reflexivity].
  exists i, ti. split; [exact Ho|]. split; [exact Eti|]. subst j. reflexivity.
Qed.



Lemma nth_error_snoc {A} (l : list A) x id y :
  nth_error l id = Some y -> nth_error (l ++ [x]) id = Some y.
Proof.
  intros H. rewrite nth_error_app1; [exact H|]. apply nth_error_Some. congruence.
Qed.

Lemma nth_error_last {A} (l : list A) x : nth_error (l ++ [x]) (length l) = Some x.
Proof. rewrite nth_error_app2, Nat.sub_diag by lia. reflexivity. Qed.

Lemma task_at_snoc ts t' g id :
  (exists t, nth_error ts id = Some t /\ task_gen t = g) ->
  exists t, nth_error (ts ++ [t']) id = Some t /\ task_gen t = g.
Proof. intros [t [H1 H2]]. exists t. split; [apply nth_error_snoc, H1 | exact H2]. Qed.

Lemma raster_step_gen_ok input done_cb error_cb idx s s' :
  Nat.even idx = true -> gen_ok input done_cb error_cb s ->
  raster_step input done_cb error_cb idx s = ROk tt s' -> gen_ok input done_cb error_cb s'.
Proof.
  intros He (Ht & Hr & Hed) H.
  apply raster_step_ok in H as (t & Hto & Hts & Hes & Hrs & _); [|exact He].
  unfold gen_ok. rewrite Hts, Hes, Hrs. repeat split.
  - apply Forall_app. split; [exact Ht|]. constructor; [left; exact Hto | constructor].
  - apply Forall_app. split.
    + eapply Forall_impl; [exact Hr|]. intros id. apply task_at_snoc.
    + constructor; [|constructor]. exists t. split; [apply nth_error_last|].
      destruct Hto as (? & ? & ? & _ & _ & _ & ->). reflexivity.
  - eapply Forall_impl; [exact Hed|]. intros e [H1 H2]. split; apply task_at_snoc; assumption.
Qed.

Lemma transition_step_gen_ok input done_cb error_cb r i j s s' :
  Nat.odd i = true -> j = i / 2 -> gen_ok input done_cb error_cb s ->
  transition_step input done_cb error_cb r i j s = ROk tt s' -> gen_ok input done_cb error_cb s'.
Proof.
  intros Ho Hj (Ht & Hr & Hed) H.
  apply transition_step_ok in H as (t & r0 & r1 & Hto & E0 & E1 & Hts & Hes & Hrs); [|exact Ho|exact Hj].
  assert (Htr : task_gen t = TransitionGen) by (destruct Hto as (? & ? & _ & _ & ->); reflexivity).
  rewrite Forall_forall in Hr.
  assert (H0 := Hr r0 (proj2 (list_elem_of_In _ _) (nth_error_In _ _ E0))).
  assert (H1 := Hr r1 (proj2 (list_elem_of_In _ _) (nth_error_In _ _ E1))).
  rewrite <- Forall_forall in Hr.
  unfold gen_ok. rewrite Hts, Hes, Hrs. repeat split.
  - apply Forall_app. split; [exact Ht|]. constructor; [right; exact Hto | constructor].
  - eapply Forall_impl; [exact Hr|]. intros id. apply task_at_snoc.
  - apply Forall_app. split.
    + eapply Forall_impl; [exact Hed|]. intros e [Ha Hb]. split; apply task_at_snoc; assumption.
    + assert (Hn : exists t0, nth_error (tf_tasks (taskflow_ s) ++ [t]) (length (tf_tasks (taskflow_ s)))
                 = Some t0 /\ task_gen t0 = TransitionGen)
        by (exists t; split; [apply nth_error_last | exact Htr]).
      repeat constructor; cbn [fst snd]; first [apply task_at_snoc; assumption | exact Hn].
Qed.


Lemma raster_loop_gen_ok input done_cb error_cb fuel : forall idx s s',
  Nat.even idx = true -> gen_ok input done_cb error_cb s ->
  raster_loop input done_cb error_cb fuel idx s = ROk tt s' -> gen_ok input done_cb error_cb s'.
Proof.
  induction fuel as [|fuel IH]; intros idx s s' He Hok H; cbn [raster_loop] in H.
  - injection H as <-. exact Hok.
  - destruct (idx <? input_size input); [|injection H as <-; exact Hok].
    unfold bind at 1 in H.
    destruct (raster_step input done_cb error_cb idx s) as [[] s1| |] eqn:Es; try discriminate.
    eapply IH; [| |exact H].
    + rewrite Nat.even_add. rewrite He. reflexivity.
    + eapply raster_step_gen_ok; [exact He|exact Hok|exact Es].
Qed.

Lemma transition_loop_gen_ok input done_cb error_cb r fuel : forall j s s',
  gen_ok input done_cb error_cb s ->
  transition_loop input done_cb error_cb r fuel (2 * j + 1) j s = ROk tt s' ->
  gen_ok input done_cb error_cb s'.
Proof.
  induction fuel as [|fuel IH]; intros j s s' Hok H; cbn [transition_loop] in H.
  - injection H as <-. exact Hok.
  - destruct (_ <? _)%Z; [|injection H as <-; exact Hok].
    unfold bind at 1 in H.
    destruct (transition_step input done_cb error_cb r (2 * j + 1) j s) as [[] s1| |] eqn:Es;
      try discriminate.
    replace (2 * j + 1 + 2) with (2 * (j + 1) + 1) in H by lia.
    eapply IH; [|exact H].
    eapply transition_step_gen_ok; [| |exact Hok|exact Es].
    + rewrite Nat.odd_add, Nat.odd_mul. reflexivity.
    + rewrite Nat.add_comm, Nat.mul_comm, Nat.div_add by lia. reflexivity.
Qed.

Lemma generate_gen_ok input done_cb error_cb s tf s' :
  generateTaskflow input done_cb error_cb s = ROk tf s' ->
  tf = taskflow_ s' /\ gen_ok input done_cb error_cb s'.
Proof.
  unfold generateTaskflow, bind at 1.
  destruct (checkProcessInput input s) as [[|] s0|msg s0|] eqn:Ec; cbn [negb];
    [| unfold bind, emit, modify, throw; discriminate | discriminate | discriminate].
  apply RasterOnlyHistoryProofs.check_true_state in Ec. subst s0.
  destruct s as [nm tf0 rt tt lg].
  unfold bind at 1. unfold clear, emit, set_taskflow, set_raster_tasks, modify, bind at 1 2 3.
  cbn [name_ taskflow_ raster_tasks_ transition_tasks_ log_].
  set (s1 := mkROT nm empty_taskflow [] tt ((lg ++ [EvClear TransitionGen]) ++ [EvClear RasterGen])).
  assert (Hok1 : gen_ok input done_cb error_cb s1) by (repeat split; constructor).
  unfold bind at 1, gets. cbn [raster_tasks_ s1 length].
  unfold bind at 1.
  destruct (raster_loop input done_cb error_cb _ 0 s1) as [[] s2| |] eqn:Er; try discriminate.
  apply raster_loop_gen_ok in Er; [|reflexivity|exact Hok1].
  unfold bind at 1.
  destruct (transition_loop input done_cb error_cb 0 _ 1 0 s2) as [[] s3| |] eqn:Et; try discriminate.
  apply (transition_loop_gen_ok _ _ _ _ _ 0) in Et; [|exact Er].
  intros [= <- <-]. split; [reflexivity|exact Et].
Qed.

(** X6: every task of a taskflow returned by [generateTaskflow], whatever
    the input, is either the raster task of an even segment [idx], whose
    start instruction is the START-typed start of the composite ([idx = 0])
    or last plan instruction of segment [idx - 1], or the transition task
    of an odd segment [idx], which starts at index [idx - 1] and ends at
    [idx + 1]; each task's success and failure callbacks carry its
    segment's description and the outer [done_cb] and [error_cb]. *)
Theorem generated_tasks_bound_to_segments input done_cb error_cb s tf s' :
  generateTaskflow input done_cb error_cb s = ROk tf s' ->
  Forall (fun t => raster_task_of input done_cb error_cb t
                   \/ transition_task_of input done_cb error_cb t) (tf_tasks tf).
Proof. intros H. apply generate_gen_ok in H as [-> [Ht _]]. exact Ht. Qed.

(** X7: every dependency edge of a taskflow returned by [generateTaskflow]
    runs from a raster task into a transition task: rasters have no
    predecessors and transitions no successors. *)
Theorem generated_edges_raster_to_transition input done_cb error_cb s tf s' :
  generateTaskflow input done_cb error_cb s = ROk tf s' ->
  Forall (fun e => (exists t, nth_error (tf_tasks tf) (fst e) = Some t /\ task_gen t = RasterGen)
                /\ (exists t, nth_error (tf_tasks tf) (snd e) = Some t /\ task_gen t = TransitionGen))
    (tf_edges tf).
Proof. intros H. apply generate_gen_ok in H as [-> [_ [_ He]]]. exact He. Qed.


Lemma gen_ok_callbacks input done_cb error_cb s :
  gen_ok input done_cb error_cb s ->
  Forall (fun t => snd (task_success t) = done_cb /\ snd (task_failure t) = error_cb
                   /\ fst (task_failure t) = fst (task_success t))
    (tf_tasks (taskflow_ s)).
Proof.
  intros [Ht _]. eapply Forall_impl; [exact Ht|].
  intros t [(? & ? & ? & _ & _ & _ & ->) | (? & ? & _ & _ & ->)]; repeat split.
Qed.

Lemma on_done_events id ok s t :
  nth_error (tf_tasks (taskflow_ s)) id = Some t ->
  on_subtaskflow_done id ok s =
  ROk tt (mkROT (name_ s) (taskflow_ s) (raster_tasks_ s) (transition_tasks_ s)
            (log_ s ++
             if ok then EvLogInform (name_ s +:+ " Successful: " +:+ fst (task_success t))
                        :: match snd (task_success t) with Some cb => [EvInvoke cb] | None => [] end
             else [EvAbort TransitionGen; EvAbort RasterGen;
                   EvLogError (name_ s +:+ " Failure: " +:+ fst (task_failure t))]
                  ++ match snd (task_failure t) with Some cb => [EvInvoke cb] | None => [] end)).
Proof.
  intros Ht. destruct s as [nm tf rt tt lg].
  unfold on_subtaskflow_done, bind at 1, gets. cbn [taskflow_] in *.
  unfold bind at 1, of_option. rewrite Ht. unfold ret.
  destruct ok; destruct t as [tn tg ti [ms cs] [mf cf]]; cbn [fst snd task_success task_failure].
  - destruct cs; unfold successCallback, emit, modify, gets, bind, ret; cbn;
      rewrite <- ?app_assoc; reflexivity.
  - destruct cf; unfold failureCallback, emit, modify, gets, bind, ret; cbn;
      rewrite <- ?app_assoc; reflexivity.
Qed.

(** X8: after a generation with outer callbacks [d] and [e], each
    finishing sub-taskflow (given by its task id) leads to exactly one
    outer callback: a success logs the task's description and invokes
    [d], a failure aborts both generators, logs the description as a
    failure and invokes [e]; the taskflow and task lists are left as they
    are. *)
Theorem completions_invoke_outer_callbacks input (d e : nat) s tf s1 (l : list (nat * bool)) :
  generateTaskflow input (Some d) (Some e) s = ROk tf s1 ->
  Forall (fun c => fst c < length (tf_tasks tf)) l ->
  let descs := map (fun t => fst (task_success t)) (tf_tasks tf) in
  exists s2,
    run_completions l s1 = ROk tt s2
    /\ taskflow_ s2 = tf /\ raster_tasks_ s2 = raster_tasks_ s1
    /\ transition_tasks_ s2 = transition_tasks_ s1
    /\ log_ s2 = log_ s1 ++
         flat_map (fun c : nat * bool =>
           let msg := nth (fst c) descs "" in
           if snd c then [EvLogInform (name_ s1 +:+ " Successful: " +:+ msg); EvInvoke d]
           else [EvAbort TransitionGen; EvAbort RasterGen;
                 EvLogError (name_ s1 +:+ " Failure: " +:+ msg); EvInvoke e]) l.
Proof.
  intros Hg Hl descs.
  apply generate_gen_ok in Hg as [-> Hok].
  apply gen_ok_callbacks in Hok.
  subst descs. set (tf := taskflow_ s1) in *.
  assert (Hs : taskflow_ s1 = tf) by reflexivity. clearbody tf.
  revert s1 Hs. induction l as [|[id ok] l IH]; intros s1 Hs.
  - exists s1. rewrite app_nil_r. auto.
  - apply Forall_cons in Hl as [Hid Hl']. cbn [fst] in Hid.
    destruct (nth_error (tf_tasks tf) id) as [t|] eqn:Et;
      [|apply nth_error_None in Et; lia].
    assert (Hcb : snd (task_success t) = Some d /\ snd (task_failure t) = Some e
                  /\ fst (task_failure t) = fst (task_success t)).
    { rewrite Forall_forall in Hok. apply Hok, list_elem_of_In, (nth_error_In _ _ Et). }
    assert (Hdesc : nth id (map (fun t => fst (task_success t)) (tf_tasks tf)) "" = fst (task_success t)).
    { rewrite (nth_error_nth _ _ "" (map_nth_error (fun t => fst (task_success t)) _ _ Et)). reflexivity. }
    destruct (IH Hl' (mkROT (name_ s1) (taskflow_ s1) (raster_tasks_ s1) (transition_tasks_ s1)
            (log_ s1 ++
             if ok then EvLogInform (name_ s1 +:+ " Successful: " +:+ fst (task_success t))
                        :: match snd (task_success t) with Some cb => [EvInvoke cb] | None => [] end
             else [EvAbort TransitionGen; EvAbort RasterGen;
                   EvLogError (name_ s1 +:+ " Failure: " +:+ fst (task_failure t))]
                  ++ match snd (task_failure t) with Some cb => [EvInvoke cb] | None => [] end)))
      as (s2 & Hr & Htf & Hrt & Htt & Hlg); [exact Hs|].
    exists s2. cbn [run_completions]. unfold bind at 1.
    rewrite (on_done_events id ok s1 t) by (rewrite Hs; exact Et).
    rewrite Hr. cbn [name_ log_ raster_tasks_ transition_tasks_] in *.
    repeat split; auto.
    rewrite Hlg, <- app_assoc. f_equal. cbn [flat_map fst snd]. rewrite Hdesc.
    destruct Hcb as (-> & -> & ->). destruct ok; reflexivity.
Qed.

Lemma generated_tasks_bound_to_segments_witness :
  exists tf s', generateTaskflow rtr (Some 1) (Some 2) fresh = ROk tf s'
    /\ length (tf_tasks tf) = 3
    /\ Forall (fun t => raster_task_of rtr (Some 1) (Some 2) t
                       \/ transition_task_of rtr (Some 1) (Some 2) t) (tf_tasks tf).
Proof.
  destruct (generateTaskflow rtr (Some 1) (Some 2) fresh) as [tf s'| |] eqn:E;
    [|vm_compute in E; discriminate E|vm_compute in E; discriminate E].
  exists tf, s'. split; [reflexivity|].
  pose proof (generated_tasks_bound_to_segments rtr (Some 1) (Some 2) fresh tf s' E) as Hf.
  vm_compute in E. injection E as <- <-. split; [reflexivity | exact Hf].
Defined.

Lemma generated_edges_raster_to_transition_witness :
  exists tf s', generateTaskflow rtr None None fresh = ROk tf s'
    /\ tf_edges tf = [(0, 2); (1, 2)]
    /\ Forall (fun e => (exists t, nth_error (tf_tasks tf) (fst e) = Some t /\ task_gen t = RasterGen)
                     /\ (exists t, nth_error (tf_tasks tf) (snd e) = Some t /\ task_gen t = TransitionGen))
         (tf_edges tf).
Proof.
  destruct (generateTaskflow rtr None None fresh) as [tf s'| |] eqn:E;
    [|vm_compute in E; discriminate E|vm_compute in E; discriminate E].
  exists tf, s'. split; [reflexivity|].
  pose proof (generated_edges_raster_to_transition rtr None None fresh tf s' E) as Hf.
  vm_compute in E. injection E as <- <-. split; [reflexivity | exact Hf].
Defined.

Lemma completions_invoke_outer_callbacks_witness :
  exists tf s1 s2, generateTaskflow rtr (Some 1) (Some 2) fresh = ROk tf s1
    /\ run_completions [(0, true); (2, true); (1, false)] s1 = ROk tt s2
    /\ log_ s2 = [EvClear TransitionGen; EvClear RasterGen;
                  EvLogInform "RasterOnlyTaskflow Successful: raster 0"; EvInvoke 1;
                  EvLogInform "RasterOnlyTaskflow Successful: transition 0"; EvInvoke 1;
                  EvAbort TransitionGen; EvAbort RasterGen;
                  EvLogError "RasterOnlyTaskflow Failure: raster 1"; EvInvoke 2].
Proof.
  destruct (generateTaskflow rtr (Some 1) (Some 2) fresh) as [tf s1| |] eqn:E;
    [|vm_compute in E; discriminate E|vm_compute in E; discriminate E].
  destruct (completions_invoke_outer_callbacks rtr 1 2 fresh tf s1 [(0, true); (2, true); (1, false)] E)
    as (s2 & Hr & _ & _ & _ & Hl).
  { vm_compute in E. injection E as <- <-. repeat constructor; cbn; lia. }
  exists tf, s1, s2. split; [reflexivity|]. split; [exact Hr|].
  rewrite Hl. vm_compute in E. injection E as <- <-. vm_compute. reflexivity.
Defined.

End TaskInputsProofs.
